(** * gpx2video: command line, task set-up, latitude validation, time widget

    A shallow embedding of
    - [gpxlib/Latitude.cpp]    ([Latitude::validate]),
    - [src/widgets/time.h]     ([TimeWidget::render]),
    - [src/main.cpp]           ([GPX2Video::parseCommandLine], [main]),
    together with the properties the design document states about them.

    Conventions.  C [int] values are [Z]; a [char *] that may be [NULL] is an
    [option string]; a [double] is an IEEE-754 binary64 value, represented by
    the Standard Library's [spec_float]; [std::cout] is the list of lines
    written, oldest first.  Functions of libc, and of classes implemented
    outside these three files, are parameters: Section variables, or fields
    of the record [Externals]. *)

From Stdlib Require Import ZArith String Ascii List Bool Lia.
From Stdlib Require Import Floats.SpecFloat Floats.PrimFloat Floats.FloatOps.
From Stdlib Require Import DecimalString.
From stdpp Require Import base gmap strings list.

Local Open Scope string_scope.
Local Open Scope list_scope.
Local Open Scope Z_scope.

(** ** IEEE-754 doubles *)

Definition double : Type := spec_float.

(** [a < b], [a <= b] on doubles: false as soon as one side is NaN. *)
Definition dlt (a b : double) : bool := SFltb a b.
Definition dle (a b : double) : bool := SFleb a b.

(** The literals [90.0] and [-90.0]: 90 = 6333186975989760 * 2^-46, the
    mantissa being the 53-bit one of binary64. *)
Definition d90 : double := S754_finite false 6333186975989760 (-46).
Definition dm90 : double := S754_finite true 6333186975989760 (-46).

(** [1.0], the default map factor. *)
Definition d1 : double := S754_finite false 4503599627370496 (-52).

(** [91.0] and [45.0], used in examples. *)
Definition d91 : double := S754_finite false 6403555720167424 (-46).
Definition d45 : double := S754_finite false 6333186975989760 (-47).

(** ** gpxlib: [Latitude::validate] *)

Module Latitude.

(** [Report::Warning]; only [INCORRECT_VALUE] occurs in [Latitude.cpp], the
    other enumerators of [Report.h] are kept by their number. *)
Inductive Warning : Type :=
| INCORRECT_VALUE
| OTHER_WARNING (code : Z).

(** The part of a [Node] that [validate] reads. *)
Record Node : Type := mkNode {
  getName : string;
  getValue : string
}.

(** One call [report->report(node, warning, text)]. *)
Record ReportCall : Type := mkCall {
  call_node : Node;
  call_warning : Warning;
  call_text : string
}.

(** The [Report *report] argument.  [Report] is a sink: validation only
    calls [report->report(...)] on it, so the effect of a validation is the
    list of calls it issued, in order. *)
Inductive ReportPtr : Type :=
| nullptr
| report_object.

Definition is_nullptr (r : ReportPtr) : bool :=
  match r with nullptr => true | report_object => false end.

(** [(value < -90.0) || (value > 90.0)] *)
Definition out_of_range (value : double) : bool :=
  dlt value dm90 || dlt d90 value.

(** [-90.0 <= value && value <= 90.0] *)
Definition in_range (value : double) : bool :=
  dle dm90 value && dle value d90.

Section Validate.

(** [Decimal::validate(report)] of the base class: its result and the
    calls it issued on [report]. *)
Variable Decimal_validate : Node -> ReportPtr -> bool * list ReportCall.

(** [Decimal::convert(value)]: [Some v] when it returns [true] having
    stored [v], [None] when it returns [false]. *)
Variable convert : Node -> option double.

Definition validate (this : Node) (report : ReportPtr)
  : bool * list ReportCall :=
  let '(ok, calls) := Decimal_validate this report in
  if ok then
    match convert this with
    | Some value =>
        if out_of_range value then
          (false,
           if is_nullptr report then calls
           else calls ++ [mkCall this INCORRECT_VALUE (getValue this)])
        else (ok, calls)
    | None => (ok, calls)
    end
  else (ok, calls).

End Validate.

(** Base-class behaviours and nodes for the examples. *)
Definition base_accepts : Node -> ReportPtr -> bool * list ReportCall :=
  fun _ _ => (true, []).
Definition base_rejects : Node -> ReportPtr -> bool * list ReportCall :=
  fun _ _ => (false, []).
Definition converts_to (v : double) : Node -> option double :=
  fun _ => Some v.
Definition does_not_convert : Node -> option double := fun _ => None.

Definition lat (text : string) : Node := mkNode "lat" text.

End Latitude.

(** ** C integers and text output *)

(** Wrap-around of a 32-bit [int]. *)
Definition to_int (z : Z) : Z := (z + 2 ^ 31) mod 2 ^ 32 - 2 ^ 31.
Definition int_add (a b : Z) : Z := to_int (a + b).

(** [std::cout << i] for an [int]. *)
Definition show_int (i : Z) : string := NilZero.string_of_int (Z.to_int i).

(** The code of a character constant such as ['h']. *)
Definition chr (c : ascii) : Z := Z.of_N (N_of_ascii c).

Definition tab : string := String (ascii_of_nat 9) "".

(** ** Widgets: [TimeWidget::render] *)

Module TimeWidget.

(** [struct tm], as filled in by [localtime_r]. *)
Record tm : Type := mkTm {
  tm_sec : Z;
  tm_min : Z;
  tm_hour : Z;
  tm_mday : Z;
  tm_mon : Z;
  tm_year : Z;
  tm_wday : Z;
  tm_yday : Z;
  tm_isdst : Z
}.

(** The conversions [%H], [%M], [%S] of [strftime]: the field as a decimal
    number of at least two digits, padded with a zero. *)
Definition two_digits (n : Z) : string :=
  if (0 <=? n) && (n <? 10) then "0" +:+ show_int n else show_int n.

(** [strftime(s, sizeof(s), "%H:%M:%S", &time)] *)
Definition strftime_HMS (time : tm) : string :=
  two_digits (tm_hour time) +:+ ":" +:+
  two_digits (tm_min time) +:+ ":" +:+
  two_digits (tm_sec time).

(** Modelled from the spec: [GPXData] (declared in a header outside these
    files) is the TelemetrySample of the data model:
    timestamp, latitude, longitude, elevation and instantaneous speed. *)
Record GPXData : Type := mkGPXData {
  timestamp : Z;
  latitude : double;
  longitude : double;
  elevation : double;
  speed : double
}.

(** What [render] reads of the widget: the geometry and label kept by the
    [VideoWidget] base class, and the camera clock [app_.time()]. *)
Record Widget : Type := mkWidget {
  x : Z;
  y : Z;
  width : Z;
  height : Z;
  border : Z;
  padding : Z;
  label : string;
  app_time : Z
}.

(** The two drawing primitives [render] calls. *)
Inductive DrawCall : Type :=
| DrawLabel (px py : Z) (text : string)
| DrawValue (px py : Z) (text : string).

Section Render.

(** [OIIO::ImageBuf] and the [VideoWidget] primitives that paint on it. *)
Variable ImageBuf : Type.
Variable drawLabel : ImageBuf -> Z -> Z -> string -> ImageBuf.
Variable drawValue : ImageBuf -> Z -> Z -> string -> ImageBuf.

(** [localtime_r]: depends on the time zone of the process. *)
Variable localtime_r : Z -> tm.

(** [render(buf, data)]: the drawing calls issued, in order, and the
    frame buffer they leave. *)
Definition render (this : Widget) (buf : ImageBuf) (data : GPXData)
  : list DrawCall * ImageBuf :=
  (* Don't use gps time, but camera time! *)
  let time := localtime_r (app_time this) in
  let s := strftime_HMS time in
  let px := int_add (int_add (x this) (height this)) (padding this) in
  let buf1 := drawLabel buf px (y this) (label this) in
  let buf2 := drawValue buf1 px (y this) s in
  ([DrawLabel px (y this) (label this); DrawValue px (y this) s], buf2).

End Render.

End TimeWidget.

(** ** The application: [GPX2Video::parseCommandLine] and [main] *)

Module GPX2Video.

(** [GPX2Video::Command].  [main.cpp] names six enumerators; [CommandNull]
    stands for any other value of the enumeration, which the [switch] of
    [main] sends to its [default] label. *)
Inductive Command : Type :=
| CommandNull
| CommandSource
| CommandSync
| CommandClear
| CommandMap
| CommandTrack
| CommandVideo.

#[global] Instance Command_eq_dec : EqDecision Command.
Proof. solve_decision. Defined.

(** The arguments of the [GPX2Video::Settings] constructor, in order. *)
Record Settings : Type := mkSettings {
  s_gpxfile : string;
  s_mediafile : string;
  s_outputfile : string;
  s_map_factor : double;
  s_map_zoom : Z;
  s_max_duration_ms : Z;
  s_map_source : Z
}.

(** The tasks [main] creates. *)
Inductive Task : Type :=
| TimeSyncTask
| MapTask
| RendererTask.

(** The application object.  [settings_] is [None] until [setSettings] is
    called; [appended_] lists the arguments of the calls to [append], oldest
    first. *)
Record App : Type := mkApp {
  command_ : Command;
  settings_ : option Settings;
  log_level_ : Z;
  appended_ : list Task
}.

Definition setCommand (command : Command) (a : App) : App :=
  mkApp command (settings_ a) (log_level_ a) (appended_ a).

Definition setSettings (settings : Settings) (a : App) : App :=
  mkApp (command_ a) (Some settings) (log_level_ a) (appended_ a).

Definition setLogLevel (level : Z) (a : App) : App :=
  mkApp (command_ a) (settings_ a) level (appended_ a).

Definition append (t : Task) (a : App) : App :=
  mkApp (command_ a) (settings_ a) (log_level_ a) (appended_ a ++ [t]).

(** Modelled from the spec: the tile cache is implemented outside these
    files.  A [TileKey] is {source identifier, zoom level, tile-x,
    tile-y} and identifies one raster tile; a [Tile] is its raw bytes. *)
Record TileKey : Type := mkTileKey {
  tk_source : Z;
  tk_zoom : Z;
  tk_x : Z;
  tk_y : Z
}.

#[global] Instance TileKey_eq_dec : EqDecision TileKey.
Proof. solve_decision. Defined.

#[global] Instance TileKey_countable : Countable TileKey.
Proof.
  refine (inj_countable'
            (fun k => (tk_source k, tk_zoom k, tk_x k, tk_y k))
            (fun t => match t with (s, z, a, b) => mkTileKey s z a b end) _).
  intros []; reflexivity.
Defined.

Definition Tile : Type := list Z.

(** The state of a run: the application object, what was written to
    [std::cout] and through [log_notice], the task objects deleted, and
    the persisted tile cache with the number of external fetches made. *)
Record Process : Type := mkProcess {
  app : App;
  cout : list string;
  notices : list string;
  deleted : list Task;
  tile_store : gmap TileKey Tile;
  fetch_calls : nat
}.

Definition with_app (f : App -> App) (p : Process) : Process :=
  mkProcess (f (app p)) (cout p) (notices p) (deleted p)
            (tile_store p) (fetch_calls p).

(** [std::cout << ... << std::endl] *)
Definition say (line : string) (p : Process) : Process :=
  mkProcess (app p) (cout p ++ [line]) (notices p) (deleted p)
            (tile_store p) (fetch_calls p).

Definition log_notice (msg : string) (p : Process) : Process :=
  mkProcess (app p) (cout p) (notices p ++ [msg]) (deleted p)
            (tile_store p) (fetch_calls p).

Definition delete (t : Task) (p : Process) : Process :=
  mkProcess (app p) (cout p) (notices p) (deleted p ++ [t])
            (tile_store p) (fetch_calls p).

(** *** The option table *)

Definition no_argument : Z := 0.
Definition required_argument : Z := 1.

Record option_entry : Type := mkOption {
  o_name : string;
  o_has_arg : Z;
  o_val : Z
}.

Definition options : list option_entry :=
  [ mkOption "help" no_argument (chr "h");
    mkOption "verbose" no_argument (chr "v");
    mkOption "quiet" no_argument (chr "q");
    mkOption "duration" required_argument (chr "d");
    mkOption "media" required_argument (chr "m");
    mkOption "gpx" required_argument (chr "g");
    mkOption "output" required_argument (chr "o");
    mkOption "map-source" required_argument (chr "s");
    mkOption "map-zoom" required_argument (chr "z");
    mkOption "map-list" no_argument (chr "l") ].

(** *** What [getopt_long] delivers

    One call of [getopt_long] that did not return [-1]: the value
    returned, [optarg], and the index stored for a long option. *)
Record GetoptResult : Type := mkGetopt {
  go_option : Z;
  go_optarg : option string;
  go_index : nat
}.

(** A command line as [parseCommandLine] sees it: [argv[0]], the results of
    the successive calls of [getopt_long] (after the last of them it
    returns [-1]), and the arguments it leaves at [argv + optind]. *)
Record CommandLine : Type := mkCommandLine {
  argv0 : string;
  getopt_results : list GetoptResult;
  operands : list string
}.

(** The local variables of [parseCommandLine] that the loop assigns. *)
Record Locals : Type := mkLocals {
  verbose : Z;
  map_zoom : Z;
  max_duration_ms : Z;
  map_factor : double;
  map_source : Z;
  gpxfile : option string;
  mediafile : option string;
  outputfile : option string
}.

(** How the option loop is left: by a [return], or by [break]. *)
Inductive LoopOutcome : Type :=
| Returned (rc : Z) (p : Process)
| Finished (l : Locals) (p : Process).

(** [optarg] of an option that takes an argument; [getopt_long] always sets
    it for those. *)
Definition arg (optarg : option string) : string := default "" optarg.

(** What the program takes from outside these files: libc, the
    tables of [MapSettings], the version string, the event loop and the tile
    transport. *)
Record Externals : Type := mkExternals {
  (** libc *)
  atoi : string -> Z;
  strtod : string -> double;
  (** the enumeration [MapSettings::Source], by its integer values, and the
      three tables of the map sources *)
  SourceNull : Z;
  SourceOpenStreetMap : Z;
  SourceCount : Z;
  getFriendlyName : Z -> string;
  getCopyright : Z -> string;
  getRepoURI : Z -> string;
  (** [GPX2Video::version()] *)
  version : string;
  (** [app.exec()], the event loop: [None] when it never returns *)
  exec : Process -> option Process;
  (** the external tile transport, taken to succeed *)
  fetchTileBytes : TileKey -> Tile
}.

(** The results the option loop handles: those before the first [-1]. *)
Fixpoint handled (rs : list GetoptResult) : list GetoptResult :=
  match rs with
  | [] => []
  | r :: rs' => if go_option r =? -1 then [] else r :: handled rs'
  end.

(** Option [-c] is given on the command line. *)
Definition given (c : ascii) (cl : CommandLine) : bool :=
  existsb (fun r => go_option r =? chr c) (handled (getopt_results cl)).

(** The first of the three file options that is not given, if any. *)
Definition first_missing (cl : CommandLine) : option string :=
  if negb (given "m" cl) then Some "media"
  else if negb (given "g" cl) then Some "gpx"
  else if negb (given "o" cl) then Some "output"
  else None.

(** [q] differs from [p] at most in the command, the settings and what was
    written to [std::cout]. *)
Definition same_run (p q : Process) : Prop :=
  appended_ (app q) = appended_ (app p) /\
  log_level_ (app q) = log_level_ (app p) /\
  notices q = notices p /\
  deleted q = deleted p /\
  tile_store q = tile_store p /\
  fetch_calls q = fetch_calls p.

Section Program.

Variable ext : Externals.

(** *** [parseCommandLine] *)

Definition initial_locals : Locals :=
  {| verbose := 0;
     map_zoom := 12;
     max_duration_ms := 0;
     map_factor := d1;
     map_source := SourceOpenStreetMap ext;
     gpxfile := None;
     mediafile := None;
     outputfile := None |}.

Definition option_name (index : nat) : string :=
  match options !! index with
  | Some o => o_name o
  | None => ""
  end.

(** The body of the [switch (option)]. *)
Definition handle_option (r : GetoptResult) (l : Locals) (p : Process)
  : LoopOutcome :=
  let option := go_option r in
  let optarg := go_optarg r in
  if option =? 0 then
    Finished l
      (say ("option " +:+ option_name (go_index r) +:+
            match optarg with
            | Some a => " with arg " +:+ a
            | None => ""
            end) p)
  else if option =? chr "h" then
    Returned (-1) p
  else if option =? chr "l" then
    Returned 0 (with_app (setCommand CommandSource) p)
  else if option =? chr "f" then
    Finished (mkLocals (verbose l) (map_zoom l) (max_duration_ms l)
                (strtod ext (arg optarg)) (map_source l)
                (gpxfile l) (mediafile l) (outputfile l)) p
  else if option =? chr "z" then
    Finished (mkLocals (verbose l) (atoi ext (arg optarg)) (max_duration_ms l)
                (map_factor l) (map_source l)
                (gpxfile l) (mediafile l) (outputfile l)) p
  else if option =? chr "s" then
    Finished (mkLocals (verbose l) (map_zoom l) (max_duration_ms l)
                (map_factor l) (atoi ext (arg optarg))
                (gpxfile l) (mediafile l) (outputfile l)) p
  else if option =? chr "q" then
    Finished l p
  else if option =? chr "v" then
    Finished (mkLocals (int_add (verbose l) 1) (map_zoom l)
                (max_duration_ms l) (map_factor l) (map_source l)
                (gpxfile l) (mediafile l) (outputfile l)) p
  else if option =? chr "d" then
    Finished (mkLocals (verbose l) (map_zoom l) (atoi ext (arg optarg))
                (map_factor l) (map_source l)
                (gpxfile l) (mediafile l) (outputfile l)) p
  else if option =? chr "m" then
    match mediafile l with
    | Some _ => Returned (-1) (say "'media' option is already set!" p)
    | None =>
        Finished (mkLocals (verbose l) (map_zoom l) (max_duration_ms l)
                    (map_factor l) (map_source l)
                    (gpxfile l) (Some (arg optarg)) (outputfile l)) p
    end
  else if option =? chr "g" then
    match gpxfile l with
    | Some _ => Returned (-1) (say "'gpx' option is already set!" p)
    | None =>
        Finished (mkLocals (verbose l) (map_zoom l) (max_duration_ms l)
                    (map_factor l) (map_source l)
                    (Some (arg optarg)) (mediafile l) (outputfile l)) p
    end
  else if option =? chr "o" then
    match outputfile l with
    | Some _ => Returned (-1) (say "'output' option is already set!" p)
    | None =>
        Finished (mkLocals (verbose l) (map_zoom l) (max_duration_ms l)
                    (map_factor l) (map_source l)
                    (gpxfile l) (mediafile l) (Some (arg optarg))) p
    end
  else
    Returned (-1) p.

(** The [for (;;)] loop around [getopt_long]. *)
Fixpoint option_loop (rs : list GetoptResult) (l : Locals) (p : Process)
  : LoopOutcome :=
  match rs with
  | [] => Finished l p
  | r :: rs' =>
      if go_option r =? -1 then Finished l p
      else
        match handle_option r l p with
        | Finished l' p' => option_loop rs' l' p'
        | Returned rc p' => Returned rc p'
        end
  end.

(** The chain of [strcmp] on the single remaining argument. *)
Definition command_of_word (w : string) : option Command :=
  if String.eqb w "sync" then Some CommandSync
  else if String.eqb w "clear" then Some CommandClear
  else if String.eqb w "map" then Some CommandMap
  else if String.eqb w "track" then Some CommandTrack
  else if String.eqb w "video" then Some CommandVideo
  else None.

(** What follows the required-option checks: command selection and the
    saving of the settings. *)
Definition select_and_save (name : string) (args : list string)
    (l : Locals) (gpx media output : string) (p : Process) : Z * Process :=
  let save (p : Process) :=
    (0, with_app (setSettings
                    (mkSettings gpx media output (map_factor l) (map_zoom l)
                                (max_duration_ms l) (map_source l))) p) in
  match args with
  | [w] =>
      match command_of_word w with
      | Some c => save (with_app (setCommand c) p)
      | None => (-1, say (name +:+ ": command '" +:+ w +:+ "' unknown") p)
      end
  | _ => save (with_app (setCommand CommandVideo) p)
  end.

Definition parseCommandLine (cl : CommandLine) (p : Process) : Z * Process :=
  let name := argv0 cl in
  match option_loop (getopt_results cl) initial_locals p with
  | Returned rc p' => (rc, p')
  | Finished l p' =>
      (* Check required options *)
      match mediafile l with
      | None => (-1, say (name +:+ ": option '--media' is required") p')
      | Some media =>
          match gpxfile l with
          | None => (-1, say (name +:+ ": option '--gpx' is required") p')
          | Some gpx =>
              match outputfile l with
              | None =>
                  (-1, say (name +:+ ": option '--output' is required") p')
              | Some output =>
                  select_and_save name (operands cl) l gpx media output p'
              end
          end
      end
  end.

(** *** [print_usage] and [print_map_list] *)

Definition usage_lines (name : string) : list string :=
  [ "Usage: " +:+ name +:+ "%s [-v] -m=media -g=gpx -o=output command";
    "       " +:+ name +:+ " -h";
    "";
    "Options:";
    tab +:+ "- m, --media=file       : Input media file name";
    tab +:+ "- g, --gpx=file         : GPX file name";
    tab +:+ "- o, --output=file      : Output file name";
    tab +:+ "- d, --duration         : Duration (in ms)";
    tab +:+ "- f, --map-factor       : Map factor (default: 1.0)";
    tab +:+ "- s, --map-source       : Map source";
    tab +:+ "- z, --map-zoom         : Map zoom";
    tab +:+ "- l, --map-list         : Dump supported map list";
    tab +:+ "- v, --verbose          : Show trace";
    tab +:+ "- q, --quiet            : Quiet mode";
    tab +:+ "- h, --help             : Show this help screen";
    "";
    "Command:";
    tab +:+ " sync  : Synchronize GoPro stream timestamp with embedded GPS";
    tab +:+ " clear : Clear cache";
    tab +:+ " map   : Build map from gpx data";
    tab +:+ " track : Build map with track from gpx data";
    tab +:+ " video : Process video" ].

Definition say_all (lines : list string) (p : Process) : Process :=
  foldl (fun q line => say line q) p lines.

Definition print_usage (name : string) (p : Process) : Process :=
  say_all (usage_lines name) p.

(** The line printed for source [i], none when its URI is empty. *)
Definition map_list_line (i : Z) : list string :=
  if String.eqb (getRepoURI ext i) "" then []
  else [tab +:+ "- " +:+ show_int i +:+ ":" +:+ tab +:+
        getFriendlyName ext i +:+ " " +:+ getCopyright ext i].

(** [i] runs from [SourceNull] up to, not including, [SourceCount]. *)
Definition print_map_list (name : string) (p : Process) : Process :=
  say_all (("Map list: " +:+ name) ::
           concat (map map_list_line
                       (seqZ (SourceNull ext)
                             (SourceCount ext - SourceNull ext)))) p.

(** *** [main] *)

Definition AV_LOG_INFO : Z := 32.
Definition EXIT_SUCCESS : Z := 0.

(** The three task pointers of [main], [None] for [NULL]. *)
Record Tasks : Type := mkTasks {
  map_ptr : option Task;
  renderer_ptr : option Task;
  timesync_ptr : option Task
}.

Definition no_tasks : Tasks := mkTasks None None None.

(** How the first part of [main] ends: at [goto exit], or at [app.exec()]. *)
Inductive Setup : Type :=
| GotoExit (p : Process) (t : Tasks)
| EnterLoop (p : Process) (t : Tasks).

(** [main] up to [result = app.parseCommandLine(argc, argv)].  [p0] is the
    state once [GPX2Video app(evbase)] is constructed. *)
Definition main_parse (cl : CommandLine) (p0 : Process) : Z * Process :=
  let p1 := log_notice ("gpx2video v" +:+ version ext) p0 in
  let p2 := with_app (setLogLevel AV_LOG_INFO) p1 in
  parseCommandLine cl p2.

(** [main] from its first statement to the end of the [switch]. *)
Definition main_setup (cl : CommandLine) (p0 : Process) : Setup :=
  let name := argv0 cl in
  let '(result, p3) := main_parse cl p0 in
  if result <? 0 then GotoExit (print_usage name p3) no_tasks
  else
    match command_ (app p3) with
    | CommandSource => GotoExit (print_map_list name p3) no_tasks
    | CommandSync =>
        EnterLoop (with_app (append TimeSyncTask) p3)
                  (mkTasks None None (Some TimeSyncTask))
    | CommandClear => GotoExit (log_notice "Not yet implemented" p3) no_tasks
    | CommandMap =>
        EnterLoop (with_app (append MapTask) p3)
                  (mkTasks (Some MapTask) None None)
    | CommandTrack => GotoExit (log_notice "Not yet implemented" p3) no_tasks
    | CommandVideo =>
        let p4 := with_app (append TimeSyncTask) p3 in
        let p5 := with_app (append MapTask) p4 in
        let p6 := with_app (append RendererTask) p5 in
        EnterLoop p6
                  (mkTasks (Some MapTask) (Some RendererTask)
                           (Some TimeSyncTask))
    | CommandNull => GotoExit (log_notice "Command not supported" p3) no_tasks
    end.

Definition delete_if (t : option Task) (p : Process) : Process :=
  match t with
  | Some task => delete task p
  | None => p
  end.

(** From the label [exit] on: the process status and the final state. *)
Definition main_exit (p : Process) (t : Tasks) : Z * Process :=
  let p1 := delete_if (map_ptr t) p in
  let p2 := delete_if (renderer_ptr t) p1 in
  let p3 := delete_if (timesync_ptr t) p2 in
  (EXIT_SUCCESS, p3).

(** A run of [main]: [None] when the event loop never returns. *)
Definition main (cl : CommandLine) (p0 : Process) : option (Z * Process) :=
  match main_setup cl p0 with
  | GotoExit p t => Some (main_exit p t)
  | EnterLoop p t =>
      match exec ext p with
      | Some p' => Some (main_exit p' t)
      | None => None
      end
  end.

(** *** The tile cache *)

(** Modelled from the spec: [fetch(TileKey) -> Tile] of the tile cache,
    which is implemented outside these files.  On a hit the tile is returned
    without any external call; on a miss the external fetch is invoked, its
    result is persisted under the key and returned. *)
Definition fetch (k : TileKey) (p : Process) : Tile * Process :=
  match tile_store p !! k with
  | Some t => (t, p)
  | None =>
      let t := fetchTileBytes ext k in
      (t, mkProcess (app p) (cout p) (notices p) (deleted p)
                    (<[k := t]> (tile_store p)) (S (fetch_calls p)))
  end.

End Program.

(** *** Concrete command lines and states, for the examples *)

Definition opt (c : ascii) (a : option string) : GetoptResult :=
  mkGetopt (chr c) a 0.

(** [gpx2video -m in.mp4 -g in.gpx -o out.mp4 <words>] *)
Definition with_files (words : list string) : CommandLine :=
  mkCommandLine "gpx2video"
    [opt "m" (Some "in.mp4"); opt "g" (Some "in.gpx");
     opt "o" (Some "out.mp4")] words.

(** An application on which no command is set and nothing is appended, no
    output yet, and an empty tile cache. *)
Definition fresh : Process :=
  mkProcess (mkApp CommandNull None 0 []) [] [] [] ∅ 0%nat.

(** Externals for the examples; [sample_ext loop] has the event loop
    [loop]. *)
Definition sample_ext (loop : Process -> option Process) : Externals :=
  {| atoi := fun _ => 0;
     strtod := fun _ => d1;
     SourceNull := 0;
     SourceOpenStreetMap := 1;
     SourceCount := 2;
     getFriendlyName := fun _ => "OpenStreetMap I";
     getCopyright := fun _ => "(c) OpenStreetMap contributors";
     getRepoURI := fun i => if i =? 1 then "http://tile.openstreetmap.org" else "";
     version := "0.0.0";
     exec := loop;
     fetchTileBytes := fun _ => [] |}.

Definition never_returns : Process -> option Process := fun _ => None.
Definition returns_at_once : Process -> option Process := Some.

End GPX2Video.

(** ** Notions used to state further properties *)

(** A [spec_float] that is a binary64 value: 53 bits of mantissa, infinities
    at exponent 1024. *)
Definition valid_double (v : double) : bool := valid_binary 53 1024 v.

(** [m * 2^e > 90], written without negative powers. *)
Definition above_90 (m : positive) (e : Z) : Prop :=
  90 * 2 ^ Z.max 0 (- e) < Z.pos m * 2 ^ Z.max 0 e.

(** The character of a decimal digit, and the two digits of a number below
    100. *)
Definition digit_char (d : Z) : ascii := ascii_of_nat (48 + Z.to_nat d).

Definition two_chars (n : Z) : string :=
  String (digit_char (n / 10)) (String (digit_char (n mod 10)) "").

(** The fields read by [%H:%M:%S], within the ranges [localtime_r] gives
    them (a leap second included). *)
Definition clock_in_range (t : TimeWidget.tm) : Prop :=
  0 <= TimeWidget.tm_hour t < 24 /\
  0 <= TimeWidget.tm_min t < 60 /\
  0 <= TimeWidget.tm_sec t <= 60.

(** A value within the range of a 32-bit [int]. *)
Definition fits_int (z : Z) : Prop := - 2 ^ 31 <= z < 2 ^ 31.

(** The argument of the last result with option code [code] among those the
    option loop handles. *)
Fixpoint last_arg (code : Z) (rs : list GPX2Video.GetoptResult)
  : option string :=
  match rs with
  | [] => None
  | r :: rs' =>
      if GPX2Video.go_option r =? -1 then None
      else
        match last_arg code rs' with
        | Some a => Some a
        | None =>
            if GPX2Video.go_option r =? code
            then Some (GPX2Video.arg (GPX2Video.go_optarg r))
            else None
        end
  end.

(** The settings a command line asks for: for each option the argument of
    its last occurrence, and the default of [parseCommandLine] when the
    option does not occur. *)
Definition settings_of (ext : GPX2Video.Externals)
    (cl : GPX2Video.CommandLine) : GPX2Video.Settings :=
  let rs := GPX2Video.getopt_results cl in
  GPX2Video.mkSettings
    (default "" (last_arg (chr "g") rs))
    (default "" (last_arg (chr "m") rs))
    (default "" (last_arg (chr "o") rs))
    (from_option (GPX2Video.strtod ext) d1 (last_arg (chr "f") rs))
    (from_option (GPX2Video.atoi ext) 12 (last_arg (chr "z") rs))
    (from_option (GPX2Video.atoi ext) 0 (last_arg (chr "d") rs))
    (from_option (GPX2Video.atoi ext) (GPX2Video.SourceOpenStreetMap ext)
                 (last_arg (chr "s") rs)).

(** The locals of [parseCommandLine] with the verbosity counter erased, and
    a loop outcome with it erased. *)
Definition forget_verbose (l : GPX2Video.Locals) : GPX2Video.Locals :=
  GPX2Video.mkLocals 0 (GPX2Video.map_zoom l) (GPX2Video.max_duration_ms l)
    (GPX2Video.map_factor l) (GPX2Video.map_source l)
    (GPX2Video.gpxfile l) (GPX2Video.mediafile l) (GPX2Video.outputfile l).

Definition forget_outcome (o : GPX2Video.LoopOutcome)
  : GPX2Video.LoopOutcome :=
  match o with
  | GPX2Video.Returned rc p => GPX2Video.Returned rc p
  | GPX2Video.Finished l p => GPX2Video.Finished (forget_verbose l) p
  end.

(** A command line with its quiet and verbose options taken out. *)
Definition without_quiet_verbose (cl : GPX2Video.CommandLine)
  : GPX2Video.CommandLine :=
  GPX2Video.mkCommandLine (GPX2Video.argv0 cl)
    (List.filter
       (fun r => negb ((GPX2Video.go_option r =? chr "q") ||
                       (GPX2Video.go_option r =? chr "v")))
       (GPX2Video.getopt_results cl))
    (GPX2Video.operands cl).

(** The state and the task pointers at the end of the first part of
    [main], and the tasks the pointers hold, in the order [main] deletes
    them. *)
Definition setup_process (s : GPX2Video.Setup) : GPX2Video.Process :=
  match s with
  | GPX2Video.GotoExit p _ => p
  | GPX2Video.EnterLoop p _ => p
  end.

Definition setup_tasks (s : GPX2Video.Setup) : GPX2Video.Tasks :=
  match s with
  | GPX2Video.GotoExit _ t => t
  | GPX2Video.EnterLoop _ t => t
  end.

Definition tasks_list (t : GPX2Video.Tasks) : list GPX2Video.Task :=
  option_list (GPX2Video.map_ptr t) ++
  option_list (GPX2Video.renderer_ptr t) ++
  option_list (GPX2Video.timesync_ptr t).

(** * Properties *)

(** ** Doubles *)

Lemma SFcompare_antisym (a b : double) :
  SFcompare b a = option_map CompOpp (SFcompare a b).
Proof.
  destruct a as [sa|sa| |sa ma ea], b as [sb|sb| |sb mb eb];
    unfold SFcompare, option_map;
    try reflexivity;
    try (destruct sa; reflexivity);
    try (destruct sb; reflexivity);
    try (destruct sa, sb; reflexivity).
  change (Pos.compare_cont Eq mb ma) with (mb ?= ma)%positive.
  change (Pos.compare_cont Eq ma mb) with (ma ?= mb)%positive.
  rewrite (Z.compare_antisym ea eb), (Pos.compare_antisym ma mb).
  destruct sa, sb, (ea ?= eb)%Z, (ma ?= mb)%positive; reflexivity.
Qed.

Lemma dle_not_dlt (a b : double) : dle a b = true -> dlt b a = false.
Proof.
  unfold dle, dlt, SFleb, SFltb. rewrite (SFcompare_antisym a b).
  destruct (SFcompare a b) as [[]|]; simpl; congruence.
Qed.

(** The literals are the binary64 values of the constants in the source. *)
Example d90_is_90 : Prim2SF 90%float = d90 /\ Prim2SF (-90)%float = dm90.
Proof. split; reflexivity. Qed.

Example d91_out_d45_in :
  Latitude.out_of_range d91 = true /\ Latitude.in_range d91 = false /\
  Latitude.out_of_range d45 = false /\ Latitude.in_range d45 = true.
Proof. repeat split; reflexivity. Qed.

(** A NaN is neither below [-90] nor above [90], nor inside the range. *)
Example nan_neither :
  Latitude.out_of_range S754_nan = false /\
  Latitude.in_range S754_nan = false.
Proof. split; reflexivity. Qed.

(** ** [Latitude::validate] *)

Module LatitudeFacts.
Import Latitude.

Lemma in_range_not_out (v : double) :
  in_range v = true -> out_of_range v = false.
Proof.
  unfold in_range, out_of_range. intros H.
  apply andb_true_iff in H as [Hlo Hhi].
  rewrite (dle_not_dlt _ _ Hlo), (dle_not_dlt _ _ Hhi). reflexivity.
Qed.

Section Validate.

Variable Decimal_validate : Node -> ReportPtr -> bool * list ReportCall.
Variable convert : Node -> option double.

#[local] Abbreviation validate :=
  (Latitude.validate Decimal_validate convert).

Lemma validate_base_failed this report calls :
  Decimal_validate this report = (false, calls) ->
  validate this report = (false, calls).
Proof. intros H. unfold Latitude.validate. rewrite H. reflexivity. Qed.

Lemma validate_not_converted this report calls :
  Decimal_validate this report = (true, calls) ->
  convert this = None ->
  validate this report = (true, calls).
Proof.
  intros H Hc. unfold Latitude.validate. rewrite H, Hc. reflexivity.
Qed.

Lemma validate_converted this report calls v :
  Decimal_validate this report = (true, calls) ->
  convert this = Some v ->
  validate this report =
    if out_of_range v then
      (false,
       match report with
       | nullptr => calls
       | report_object =>
           calls ++ [mkCall this INCORRECT_VALUE (getValue this)]
       end)
    else (true, calls).
Proof.
  intros H Hc. unfold Latitude.validate. rewrite H, Hc.
  destruct (out_of_range v), report; reflexivity.
Qed.

(** C2, amended.  For a latitude whose value converts to a double [v]:
    if [v < -90] or [v > 90], [validate] returns false; if moreover the
    base [Decimal] validation succeeded, the calls made on the report are
    those of the base class followed, when the report is not null, by one
    [INCORRECT_VALUE] report for this node with its text (and by nothing
    when it is null); if the base validation succeeded and
    [-90 <= v <= 90], [validate] returns true and adds no report. *)
Theorem validate_range this report v :
  convert this = Some v ->
  (out_of_range v = true -> fst (validate this report) = false) /\
  (forall calls,
      Decimal_validate this report = (true, calls) ->
      out_of_range v = true ->
      validate this report =
        (false,
         match report with
         | nullptr => calls
         | report_object =>
             calls ++ [mkCall this INCORRECT_VALUE (getValue this)]
         end)) /\
  (forall calls,
      Decimal_validate this report = (true, calls) ->
      in_range v = true ->
      validate this report = (true, calls)).
Proof.
  intros Hc. split; [|split].
  - intros Hout.
    destruct (Decimal_validate this report) as [[] calls] eqn:Hb.
    + rewrite (validate_converted _ _ _ _ Hb Hc), Hout. reflexivity.
    + rewrite (validate_base_failed _ _ _ Hb). reflexivity.
  - intros calls Hb Hout.
    rewrite (validate_converted _ _ _ _ Hb Hc), Hout. reflexivity.
  - intros calls Hb Hin.
    rewrite (validate_converted _ _ _ _ Hb Hc), (in_range_not_out _ Hin).
    reflexivity.
Qed.

(** C8.  [validate] returns false exactly when the base [Decimal]
    validation fails, or the value converts to a double that is below
    [-90] or above [90].  In particular, when the base validation succeeds
    and the conversion fails, [validate] returns true and makes no report
    call beyond those of the base class. *)
Theorem validate_false_iff this report :
  (fst (validate this report) = false <->
   fst (Decimal_validate this report) = false \/
   exists v, convert this = Some v /\ out_of_range v = true) /\
  (fst (Decimal_validate this report) = true ->
   convert this = None ->
   validate this report = (true, snd (Decimal_validate this report))).
Proof.
  destruct (Decimal_validate this report) as [ok calls] eqn:Hb.
  destruct ok.
  - destruct (convert this) as [v|] eqn:Hc.
    + rewrite (validate_converted _ _ _ _ Hb Hc). simpl. split.
      * destruct (out_of_range v) eqn:Ho; simpl; split.
        -- intros _. right. exists v. split; [reflexivity | exact Ho].
        -- reflexivity.
        -- discriminate.
        -- intros [H | (w & Hw & Hout)]; [discriminate|].
           injection Hw as <-. congruence.
      * discriminate.
    + rewrite (validate_not_converted _ _ _ Hb Hc). simpl. split.
      * split; [discriminate|].
        intros [H | (w & Hw & _)]; discriminate.
      * reflexivity.
  - rewrite (validate_base_failed _ _ _ Hb). simpl. split.
    + split; [left|]; reflexivity.
    + discriminate.
Qed.

End Validate.

(** [validate_range] at a node that converts to 91.0, and at one that
    converts to 45.0, under a base class that accepts them. *)
Lemma validate_range_witness :
  Latitude.validate base_accepts (converts_to d91) (lat "91.0") report_object
    = (false, [mkCall (lat "91.0") INCORRECT_VALUE "91.0"]) /\
  Latitude.validate base_accepts (converts_to d45) (lat "45.0") report_object
    = (true, []).
Proof.
  split.
  - exact (proj1 (proj2 (validate_range base_accepts (converts_to d91)
                           (lat "91.0") report_object d91 eq_refl))
                 [] eq_refl eq_refl).
  - exact (proj2 (proj2 (validate_range base_accepts (converts_to d45)
                           (lat "45.0") report_object d45 eq_refl))
                 [] eq_refl eq_refl).
Defined.

(** [validate_false_iff] at a node that the base class accepts and that
    does not convert. *)
Lemma validate_false_iff_witness :
  Latitude.validate base_accepts does_not_convert (lat "north") report_object
    = (true, []).
Proof.
  exact (proj2 (validate_false_iff base_accepts does_not_convert
                  (lat "north") report_object) eq_refl eq_refl).
Defined.

(** C2 as stated does not hold: a value above 90 whose base validation
    already failed is rejected without any [INCORRECT_VALUE] report, though
    the report is not null. *)
Lemma validate_range_counterexample :
  ~ (forall (Decimal_validate : Node -> ReportPtr -> bool * list ReportCall)
            (convert : Node -> option double) this v,
        convert this = Some v ->
        out_of_range v = true ->
        fst (Latitude.validate Decimal_validate convert this report_object)
          = false /\
        In (mkCall this INCORRECT_VALUE (getValue this))
           (snd (Latitude.validate Decimal_validate convert this
                   report_object))).
Proof.
  intros H.
  destruct (H base_rejects (converts_to d91) (lat "91.0") d91
              eq_refl eq_refl) as [_ Hin].
  exact Hin.
Qed.

End LatitudeFacts.

(** ** [TimeWidget::render] *)

Module TimeWidgetFacts.
Import TimeWidget.

Example strftime_HMS_pads :
  strftime_HMS (mkTm 5 4 13 1 0 120 3 0 0) = "13:04:05".
Proof. reflexivity. Qed.

(** C3.  For every destination frame buffer and every two telemetry
    samples, [render] issues the same drawing calls and leaves the same
    frame; the value it draws is the camera clock [app_.time()], broken
    down by [localtime_r] and formatted as hours, minutes and seconds. *)
Theorem render_ignores_sample
    (ImageBuf : Type)
    (drawLabel drawValue : ImageBuf -> Z -> Z -> string -> ImageBuf)
    (localtime_r : Z -> tm)
    (this : Widget) (buf : ImageBuf) (d1 d2 : GPXData) :
  render ImageBuf drawLabel drawValue localtime_r this buf d1 =
  render ImageBuf drawLabel drawValue localtime_r this buf d2 /\
  exists px,
    fst (render ImageBuf drawLabel drawValue localtime_r this buf d1) =
      [DrawLabel px (y this) (label this);
       DrawValue px (y this) (strftime_HMS (localtime_r (app_time this)))].
Proof.
  split; [reflexivity|].
  eexists. reflexivity.
Qed.

End TimeWidgetFacts.

(** ** [parseCommandLine] *)

Module ParseFacts.
Import GPX2Video.

Lemma same_run_refl p : same_run p p.
Proof. repeat split. Qed.

Lemma same_run_trans p q r : same_run p q -> same_run q r -> same_run p r.
Proof.
  unfold same_run. intros (?&?&?&?&?&?) (?&?&?&?&?&?).
  repeat split; congruence.
Qed.

Lemma same_run_say line p : same_run p (say line p).
Proof. repeat split. Qed.

Lemma same_run_setCommand c p : same_run p (with_app (setCommand c) p).
Proof. repeat split. Qed.

Lemma same_run_setSettings s p : same_run p (with_app (setSettings s) p).
Proof. repeat split. Qed.

Create HintDb run.

#[local] Hint Resolve same_run_refl same_run_say same_run_setCommand
  same_run_setSettings : run.

(** Splits the chain of cases of [handle_option]. *)
Ltac split_switch :=
  unfold handle_option; cbn [go_option go_optarg go_index];
  repeat match goal with
         | |- context [if ?b then _ else _] => destruct b eqn:?
         end.

(** Turns the test that selected a case into a value of the option. *)
Ltac selected_case :=
  repeat match goal with
         | H : (_ =? _) = true |- _ => apply Z.eqb_eq in H; subst
         end.

Section Parse.

Variable ext : Externals.

(** One pass through the [switch]: a case that stays in the loop leaves the
    application as it is, and sets a file option only in its own case. *)
Lemma handle_option_spec r l p :
  match handle_option ext r l p with
  | Finished l' p' =>
      app p' = app p /\ same_run p p' /\
      (go_option r =? chr "h") = false /\
      (go_option r =? chr "l") = false /\
      (mediafile l' = None <->
       mediafile l = None /\ (go_option r =? chr "m") = false) /\
      (gpxfile l' = None <->
       gpxfile l = None /\ (go_option r =? chr "g") = false) /\
      (outputfile l' = None <->
       outputfile l = None /\ (go_option r =? chr "o") = false)
  | Returned rc p' =>
      same_run p p' /\ settings_ (app p') = settings_ (app p)
  end.
Proof.
  destruct r as [o a i], l as [vb mz md mf ms g m out].
  split_switch; selected_case; simpl;
    try (destruct m); try (destruct g); try (destruct out); simpl;
    repeat split; auto with run; try reflexivity; try tauto;
    try congruence;
    try (intros [? ?]; congruence).
Qed.

Lemma handle_option_returned r l p rc p' :
  handle_option ext r l p = Returned rc p' ->
  same_run p p' /\ settings_ (app p') = settings_ (app p).
Proof.
  intros H. pose proof (handle_option_spec r l p) as S.
  rewrite H in S. exact S.
Qed.

(** The loop stops at the first [-1]. *)
Lemma option_loop_handled rs l p :
  option_loop ext rs l p = option_loop ext (handled rs) l p.
Proof.
  revert l p. induction rs as [|r rs IH]; intros l p; simpl; [reflexivity|].
  destruct (go_option r =? -1) eqn:E; simpl; [reflexivity|].
  rewrite E. destruct (handle_option ext r l p); [reflexivity|apply IH].
Qed.

Lemma handled_no_end rs :
  Forall (fun r => (go_option r =? -1) = false) (handled rs).
Proof.
  induction rs as [|r rs IH]; simpl; [constructor|].
  destruct (go_option r =? -1) eqn:E; constructor; assumption.
Qed.

(** A loop left by [break]: the application is as before, neither [-h] nor
    [-l] was handled, and a file name is unset exactly when it was unset
    before and its option was not handled. *)
Lemma option_loop_finished rs l p l' p' :
  option_loop ext rs l p = Finished l' p' ->
  app p' = app p /\ same_run p p' /\
  existsb (fun r => go_option r =? chr "h") (handled rs) = false /\
  existsb (fun r => go_option r =? chr "l") (handled rs) = false /\
  (mediafile l' = None <->
   mediafile l = None /\
   existsb (fun r => go_option r =? chr "m") (handled rs) = false) /\
  (gpxfile l' = None <->
   gpxfile l = None /\
   existsb (fun r => go_option r =? chr "g") (handled rs) = false) /\
  (outputfile l' = None <->
   outputfile l = None /\
   existsb (fun r => go_option r =? chr "o") (handled rs) = false).
Proof.
  revert l p. induction rs as [|r rs IH]; intros l p; simpl.
  - intros [= <- <-]. pose proof (same_run_refl p). tauto.
  - destruct (go_option r =? -1) eqn:E.
    + intros [= <- <-]. simpl. pose proof (same_run_refl p). tauto.
    + pose proof (handle_option_spec r l p) as S.
      destruct (handle_option ext r l p) as [rc q|l1 p1]; [discriminate|].
      intros H. apply IH in H.
      destruct S as (Ha & Hr & Hh & Hl & Hm & Hg & Ho).
      destruct H as (Ha' & Hr' & Hh' & Hl' & Hm' & Hg' & Ho').
      simpl. rewrite Hh, Hl, Hh', Hl'. simpl.
      rewrite !orb_false_iff.
      split; [congruence|].
      split; [eapply same_run_trans; eassumption|].
      tauto.
Qed.

Lemma option_loop_returned rs l p rc p' :
  option_loop ext rs l p = Returned rc p' ->
  same_run p p' /\ settings_ (app p') = settings_ (app p).
Proof.
  revert l p. induction rs as [|r rs IH]; intros l p; simpl; [discriminate|].
  destruct (go_option r =? -1); [discriminate|].
  pose proof (handle_option_spec r l p) as S.
  destruct (handle_option ext r l p) as [rc1 q|l1 p1] eqn:E.
  - intros [= <- <-]. exact S.
  - intros H. apply IH in H. destruct S as (Ha & Hr & _).
    destruct H as [Hr' Hs]. split.
    + eapply same_run_trans; eassumption.
    + congruence.
Qed.

(** The loop on a list split at one of its results. *)
Lemma option_loop_split before r after l p l1 p1 :
  Forall (fun r => (go_option r =? -1) = false) (before ++ r :: after) ->
  option_loop ext before l p = Finished l1 p1 ->
  option_loop ext (before ++ r :: after) l p =
    match handle_option ext r l1 p1 with
    | Finished l2 p2 => option_loop ext after l2 p2
    | Returned rc p2 => Returned rc p2
    end.
Proof.
  revert l p. induction before as [|b before IH]; intros l p HF; simpl.
  - intros [= <- <-]. inversion HF as [|? ? E _]; subst. rewrite E.
    reflexivity.
  - inversion HF as [|? ? E HF']; subst. rewrite E.
    destruct (handle_option ext b l p) as [rc q|l' p']; [discriminate|].
    intros H. apply IH; assumption.
Qed.

(** After a loop left by [break], a file name is set exactly when its
    option was given. *)
Lemma files_given cl p l p' :
  option_loop ext (getopt_results cl) (initial_locals ext) p = Finished l p' ->
  (mediafile l = None <-> given "m" cl = false) /\
  (gpxfile l = None <-> given "g" cl = false) /\
  (outputfile l = None <-> given "o" cl = false).
Proof.
  intros H. apply option_loop_finished in H.
  destruct H as (_ & _ & _ & _ & Hm & Hg & Ho).
  unfold given. simpl in Hm, Hg, Ho. tauto.
Qed.

Lemma files_set cl p l p' :
  option_loop ext (getopt_results cl) (initial_locals ext) p = Finished l p' ->
  given "m" cl = true -> given "g" cl = true -> given "o" cl = true ->
  exists media gpx output,
    mediafile l = Some media /\ gpxfile l = Some gpx /\
    outputfile l = Some output /\
    parseCommandLine ext cl p =
      select_and_save (argv0 cl) (operands cl) l gpx media output p'.
Proof.
  intros H Gm Gg Go. destruct (files_given _ _ _ _ H) as (Hm & Hg & Ho).
  destruct (mediafile l) as [media|] eqn:Em;
    [|rewrite (proj1 Hm eq_refl) in Gm; discriminate].
  destruct (gpxfile l) as [gpx|] eqn:Eg;
    [|rewrite (proj1 Hg eq_refl) in Gg; discriminate].
  destruct (outputfile l) as [output|] eqn:Eo;
    [|rewrite (proj1 Ho eq_refl) in Go; discriminate].
  exists media, gpx, output. repeat split.
  unfold parseCommandLine. rewrite H, Em, Eg, Eo. reflexivity.
Qed.

Lemma command_of_word_other w :
  ~ In w ["sync"; "clear"; "map"; "track"; "video"] ->
  command_of_word w = None.
Proof.
  intros H. unfold command_of_word.
  repeat match goal with
         | |- context [String.eqb w ?k] =>
             destruct (String.eqb_spec w k) as [->|_];
             [exfalso; apply H; simpl; tauto|]
         end.
  reflexivity.
Qed.

(** C5.  When the option loop is left by [break], the media, gpx and
    output options are given and exactly one argument [w] remains: if [w]
    is one of sync, clear, map, track, video, [parseCommandLine] returns 0
    with the command of that name selected; for any other [w] it prints
    that the command is unknown and returns -1. *)
Theorem parse_selects_command cl p l p' w :
  option_loop ext (getopt_results cl) (initial_locals ext) p = Finished l p' ->
  given "m" cl = true -> given "g" cl = true -> given "o" cl = true ->
  operands cl = [w] ->
  (forall c,
      In (w, c) [("sync", CommandSync); ("clear", CommandClear);
                 ("map", CommandMap); ("track", CommandTrack);
                 ("video", CommandVideo)] ->
      fst (parseCommandLine ext cl p) = 0 /\
      command_ (app (snd (parseCommandLine ext cl p))) = c) /\
  (~ In w ["sync"; "clear"; "map"; "track"; "video"] ->
   parseCommandLine ext cl p =
     (-1, say (argv0 cl +:+ ": command '" +:+ w +:+ "' unknown") p')).
Proof.
  intros H Gm Gg Go Hw.
  destruct (files_set _ _ _ _ H Gm Gg Go)
    as (media & gpx & output & _ & _ & _ & ->).
  rewrite Hw. unfold select_and_save. split.
  - intros c Hin. simpl in Hin.
    repeat destruct Hin as [[= <- <-]|Hin]; try contradiction;
      split; reflexivity.
  - intros Hn. rewrite (command_of_word_other _ Hn). reflexivity.
Qed.

(** C6.  When neither the help nor the map-list option is given, the
    option loop is left by [break], and one of the media, gpx and output
    options is not given, [parseCommandLine] prints that the first missing
    one (in the order media, gpx, output) is required, returns -1, and
    leaves the settings of the application as they were. *)
Theorem parse_requires_files cl p l p' :
  given "h" cl = false -> given "l" cl = false ->
  option_loop ext (getopt_results cl) (initial_locals ext) p = Finished l p' ->
  given "m" cl = false \/ given "g" cl = false \/ given "o" cl = false ->
  exists o,
    first_missing cl = Some o /\
    parseCommandLine ext cl p =
      (-1, say (argv0 cl +:+ ": option '--" +:+ o +:+ "' is required") p') /\
    settings_ (app (snd (parseCommandLine ext cl p))) = settings_ (app p).
Proof.
  intros _ _ H Hmiss.
  destruct (files_given _ _ _ _ H) as (Hm & Hg & Ho).
  destruct (option_loop_finished _ _ _ _ _ H) as (Ha & _).
  unfold parseCommandLine, first_missing. rewrite H.
  destruct (given "m" cl) eqn:Gm.
  - destruct (mediafile l) as [media|]; [|discriminate (proj1 Hm eq_refl)].
    destruct (given "g" cl) eqn:Gg.
    + destruct (gpxfile l) as [gpx|]; [|discriminate (proj1 Hg eq_refl)].
      destruct (given "o" cl) eqn:Go.
      * destruct Hmiss as [?|[?|?]]; discriminate.
      * rewrite (proj2 Ho eq_refl). exists "output". simpl.
        rewrite Ha. repeat split.
    + rewrite (proj2 Hg eq_refl). exists "gpx". simpl.
      rewrite Ha. repeat split.
  - rewrite (proj2 Hm eq_refl). exists "media". simpl.
    rewrite Ha. repeat split.
Qed.

(** C9, amended.  When the map-list option is handled by the option loop,
    that is, when no option before it made [parseCommandLine] return,
    [parseCommandLine] sets the command to [CommandSource] and returns 0 at
    once, whether or not the media, gpx and output options are given; the
    settings and the rest of the application are left as they were. *)
Theorem map_list_returns_at_once cl p before r after l p' :
  handled (getopt_results cl) = before ++ r :: after ->
  go_option r = chr "l" ->
  option_loop ext before (initial_locals ext) p = Finished l p' ->
  parseCommandLine ext cl p = (0, with_app (setCommand CommandSource) p') /\
  app p' = app p.
Proof.
  intros Hs Hr H.
  pose proof (handled_no_end (getopt_results cl)) as HF. rewrite Hs in HF.
  split.
  - unfold parseCommandLine.
    rewrite option_loop_handled, Hs, (option_loop_split _ _ _ _ _ _ _ HF H).
    unfold handle_option. rewrite Hr. reflexivity.
  - apply (option_loop_finished _ _ _ _ _ H).
Qed.

(** C10.  When the option loop is left by [break], the media, gpx and
    output options are given, and the number of remaining arguments is not
    one, [parseCommandLine] sets the command to [CommandVideo], saves the
    settings and returns 0. *)
Theorem parse_defaults_to_video cl p l p' :
  option_loop ext (getopt_results cl) (initial_locals ext) p = Finished l p' ->
  given "m" cl = true -> given "g" cl = true -> given "o" cl = true ->
  length (operands cl) <> 1%nat ->
  fst (parseCommandLine ext cl p) = 0 /\
  command_ (app (snd (parseCommandLine ext cl p))) = CommandVideo /\
  exists s, settings_ (app (snd (parseCommandLine ext cl p))) = Some s.
Proof.
  intros H Gm Gg Go Hn.
  destruct (files_set _ _ _ _ H Gm Gg Go)
    as (media & gpx & output & _ & _ & _ & ->).
  unfold select_and_save.
  destruct (operands cl) as [|w [|w' ws]]; simpl in *;
    try (exfalso; apply Hn; reflexivity);
    repeat split; eexists; reflexivity.
Qed.

End Parse.

(** [gpx2video -m in.mp4 -g in.gpx -o out.mp4 map] selects the map
    command. *)
Lemma parse_selects_command_witness :
  fst (parseCommandLine (sample_ext never_returns) (with_files ["map"]) fresh)
    = 0 /\
  command_ (app (snd (parseCommandLine (sample_ext never_returns)
                        (with_files ["map"]) fresh))) = CommandMap.
Proof.
  exact (proj1 (parse_selects_command (sample_ext never_returns)
                  (with_files ["map"]) fresh _ _ "map"
                  eq_refl eq_refl eq_refl eq_refl eq_refl)
               CommandMap (or_intror (or_intror (or_introl eq_refl)))).
Defined.

Example parse_unknown_word :
  parseCommandLine (sample_ext never_returns) (with_files ["bogus"]) fresh =
    (-1, say "gpx2video: command 'bogus' unknown" fresh).
Proof. reflexivity. Qed.

(** [gpx2video -m in.mp4 video]: the gpx option is reported missing. *)
Lemma parse_requires_files_witness :
  exists o,
    first_missing (mkCommandLine "gpx2video" [opt "m" (Some "in.mp4")]
                     ["video"]) = Some o /\
    parseCommandLine (sample_ext never_returns)
      (mkCommandLine "gpx2video" [opt "m" (Some "in.mp4")] ["video"]) fresh =
      (-1, say ("gpx2video" +:+ ": option '--" +:+ o +:+ "' is required")
               fresh) /\
    settings_ (app (snd (parseCommandLine (sample_ext never_returns)
                           (mkCommandLine "gpx2video"
                              [opt "m" (Some "in.mp4")] ["video"]) fresh))) =
      settings_ (app fresh).
Proof.
  exact (parse_requires_files (sample_ext never_returns)
           (mkCommandLine "gpx2video" [opt "m" (Some "in.mp4")] ["video"])
           fresh _ _ eq_refl eq_refl eq_refl (or_intror (or_introl eq_refl))).
Defined.

(** [gpx2video -v -l]: the map list is selected though no file is given. *)
Lemma map_list_returns_at_once_witness :
  parseCommandLine (sample_ext never_returns)
    (mkCommandLine "gpx2video" [opt "v" None; opt "l" None] []) fresh =
    (0, with_app (setCommand CommandSource) fresh) /\
  app fresh = app fresh.
Proof.
  exact (map_list_returns_at_once (sample_ext never_returns)
           (mkCommandLine "gpx2video" [opt "v" None; opt "l" None] [])
           fresh [opt "v" None] (opt "l" None) [] _ _
           eq_refl eq_refl eq_refl).
Defined.

(** C9 as stated does not hold: in [gpx2video -h -l] the map-list option
    is present, but the help option before it makes [parseCommandLine]
    return -1 with the command left as it was. *)
Lemma map_list_counterexample :
  ~ (forall ext cl p,
        given "l" cl = true ->
        fst (parseCommandLine ext cl p) = 0 /\
        command_ (app (snd (parseCommandLine ext cl p))) = CommandSource).
Proof.
  intros H.
  destruct (H (sample_ext never_returns)
              (mkCommandLine "gpx2video" [opt "h" None; opt "l" None] [])
              fresh eq_refl) as [Hrc _].
  discriminate Hrc.
Qed.

(** [gpx2video -m in.mp4 -g in.gpx -o out.mp4], no command word. *)
Lemma parse_defaults_to_video_witness :
  fst (parseCommandLine (sample_ext never_returns) (with_files []) fresh)
    = 0 /\
  command_ (app (snd (parseCommandLine (sample_ext never_returns)
                        (with_files []) fresh))) = CommandVideo /\
  exists s,
    settings_ (app (snd (parseCommandLine (sample_ext never_returns)
                           (with_files []) fresh))) = Some s.
Proof.
  exact (parse_defaults_to_video (sample_ext never_returns) (with_files [])
           fresh _ _ eq_refl eq_refl eq_refl eq_refl
           (fun H : length (operands (with_files [])) = 1%nat =>
              O_S 0 H)).
Defined.

End ParseFacts.

(** ** [main] *)

Module MainFacts.
Import GPX2Video ParseFacts.

Lemma cout_say_all lines p : cout (say_all lines p) = cout p ++ lines.
Proof.
  unfold say_all. revert p.
  induction lines as [|x lines IH]; intros p; simpl.
  - rewrite app_nil_r. reflexivity.
  - rewrite IH. simpl. rewrite <- app_assoc. reflexivity.
Qed.

Lemma same_run_say_all lines p : same_run p (say_all lines p).
Proof.
  unfold say_all. revert p.
  induction lines as [|x lines IH]; intros p; simpl.
  - apply same_run_refl.
  - eapply same_run_trans; [apply same_run_say|apply IH].
Qed.

Section Main.

Variable ext : Externals.

Lemma select_and_save_same_run name args l gpx media output p :
  same_run p (snd (select_and_save name args l gpx media output p)).
Proof.
  unfold select_and_save.
  destruct args as [|w [|w' ws]]; simpl; try (repeat split; fail).
  destruct (command_of_word w); repeat split.
Qed.

(** [parseCommandLine] appends no task, logs no notice, and does not touch
    the tile cache. *)
Lemma parse_same_run cl p : same_run p (snd (parseCommandLine ext cl p)).
Proof.
  unfold parseCommandLine.
  destruct (option_loop ext (getopt_results cl) (initial_locals ext) p)
    as [rc q|l q] eqn:E.
  - apply (option_loop_returned _ _ _ _ _ _ E).
  - destruct (option_loop_finished _ _ _ _ _ _ E) as (_ & Hr & _).
    eapply same_run_trans; [exact Hr|].
    destruct (mediafile l); [|apply same_run_say].
    destruct (gpxfile l); [|apply same_run_say].
    destruct (outputfile l); [|apply same_run_say].
    apply select_and_save_same_run.
Qed.

Lemma main_parse_keeps cl p0 rc p3 :
  main_parse ext cl p0 = (rc, p3) ->
  appended_ (app p3) = appended_ (app p0) /\
  deleted p3 = deleted p0 /\
  tile_store p3 = tile_store p0 /\
  fetch_calls p3 = fetch_calls p0.
Proof.
  unfold main_parse. intros H.
  pose proof (parse_same_run cl
                (with_app (setLogLevel AV_LOG_INFO)
                   (log_notice ("gpx2video v" +:+ version ext) p0))) as S.
  rewrite H in S. destruct S as (Ha & _ & _ & Hd & Ht & Hf).
  simpl in *. auto.
Qed.

(** Every run of [main] that ends, ends with [exit(EXIT_SUCCESS)]. *)
Lemma main_status cl p0 status p' :
  main ext cl p0 = Some (status, p') -> status = EXIT_SUCCESS.
Proof.
  unfold main, main_exit.
  destruct (main_setup ext cl p0) as [p t|p t].
  - intros [= <- _]. reflexivity.
  - destruct (exec ext p); [|discriminate]. intros [= <- _]. reflexivity.
Qed.

(** C1, amended.  In every run of [main] whose command-line parsing
    returns a negative result, or whose command is one [main] does not carry
    out (clear, track, or one it does not know), [main] does not enter the
    event loop and appends no task; it prints the usage text in the first
    case and logs a notice in the second, and the process ends with status
    [EXIT_SUCCESS], which is 0. *)
Theorem main_failure_exits_with_success cl p0 rc p3 :
  main_parse ext cl p0 = (rc, p3) ->
  rc < 0 \/ command_ (app p3) = CommandClear \/
  command_ (app p3) = CommandTrack \/ command_ (app p3) = CommandNull ->
  exists p',
    main ext cl p0 = Some (0, p') /\
    main_setup ext cl p0 = GotoExit p' no_tasks /\
    appended_ (app p') = appended_ (app p0) /\
    (rc < 0 -> cout p' = cout p3 ++ usage_lines (argv0 cl)) /\
    (0 <= rc -> exists msg, notices p' = notices p3 ++ [msg]).
Proof.
  intros Hp Hc.
  destruct (main_parse_keeps _ _ _ _ Hp) as (Ha & _).
  unfold main, main_setup. rewrite Hp.
  destruct (rc <? 0) eqn:Hrc.
  - eexists. split; [reflexivity|]. split; [reflexivity|].
    apply Z.ltb_lt in Hrc.
    cbn [delete_if no_tasks map_ptr renderer_ptr timesync_ptr].
    split; [|split].
    + destruct (same_run_say_all (usage_lines (argv0 cl)) p3) as (E & _).
      unfold print_usage. congruence.
    + intros _. apply cout_say_all.
    + lia.
  - apply Z.ltb_ge in Hrc.
    destruct Hc as [Hc|[Hc|[Hc|Hc]]]; [lia| | |]; rewrite Hc;
      (eexists; split; [reflexivity|]; split; [reflexivity|];
       split; [exact Ha|]; split; [lia|]; intros _; eexists; reflexivity).
Qed.

(** C7.  In every run whose command-line parsing succeeds with the video
    command selected, [main] appends exactly the TimeSync task, the Map
    task and the Renderer task, in that order, and only then enters the
    event loop; with the sync command it appends the TimeSync task only,
    and with the map command the Map task only. *)
Theorem main_appends_tasks cl p0 rc p3 c tasks :
  main_parse ext cl p0 = (rc, p3) ->
  0 <= rc ->
  command_ (app p3) = c ->
  In (c, tasks) [(CommandVideo, [TimeSyncTask; MapTask; RendererTask]);
                 (CommandSync, [TimeSyncTask]);
                 (CommandMap, [MapTask])] ->
  exists p t,
    main_setup ext cl p0 = EnterLoop p t /\
    appended_ (app p) = appended_ (app p0) ++ tasks /\
    main ext cl p0 =
      match exec ext p with
      | Some p' => Some (main_exit p' t)
      | None => None
      end.
Proof.
  intros Hp Hrc Hc Hin.
  destruct (main_parse_keeps _ _ _ _ Hp) as (Ha & _).
  apply Z.ltb_ge in Hrc.
  unfold main, main_setup. rewrite Hp, Hrc.
  simpl in Hin.
  destruct Hin as [[= <- <-]|[[= <- <-]|[[= <- <-]|[]]]]; rewrite Hc;
    do 2 eexists; (split; [reflexivity|]); (split; [|reflexivity]);
    simpl; rewrite Ha; try reflexivity.
  rewrite <- !app_assoc. reflexivity.
Qed.

(** C4, on the code.  [main] run with the clear command logs
    [Not yet implemented] and exits with status 0, leaving the tile cache
    and the count of external fetches as they were.  Hence, when a tile is
    fetched into an empty cache, the clear command is run, and the tile is
    fetched again, the second fetch is served from the cache: one external
    fetch is made in total, not two. *)
Theorem clear_keeps_tile_cache (p : Process) (k : TileKey) :
  (exists p',
      main ext (with_files ["clear"]) p = Some (0, p') /\
      notices p' =
        notices p ++ ["gpx2video v" +:+ version ext; "Not yet implemented"] /\
      tile_store p' = tile_store p /\
      fetch_calls p' = fetch_calls p) /\
  match main ext (with_files ["clear"]) (snd (fetch ext k fresh)) with
  | Some (_, p2) => fetch_calls (snd (fetch ext k p2))
  | None => 0%nat
  end = 1%nat.
Proof.
  split.
  - eexists. split; [reflexivity|]. simpl.
    rewrite <- app_assoc. repeat split.
  - assert (fetch ext k fresh =
            (fetchTileBytes ext k,
             mkProcess (app fresh) [] [] []
                       (<[k := fetchTileBytes ext k]> ∅) 1%nat)) as ->.
    { unfold fetch. simpl. rewrite lookup_empty. reflexivity. }
    simpl. unfold fetch. simpl. rewrite lookup_insert_eq. reflexivity.
Qed.

End Main.

(** [gpx2video -h]: the usage text is printed and the status is 0. *)
Lemma main_failure_exits_with_success_witness :
  exists p',
    main (sample_ext never_returns)
         (mkCommandLine "gpx2video" [opt "h" None] []) fresh = Some (0, p') /\
    cout p' = usage_lines "gpx2video".
Proof.
  destruct (main_failure_exits_with_success (sample_ext never_returns)
              (mkCommandLine "gpx2video" [opt "h" None] []) fresh (-1) _
              eq_refl (or_introl eq_refl))
    as (p' & Hm & _ & _ & Hu & _).
  exists p'. split; [exact Hm|]. exact (Hu eq_refl).
Defined.

(** C1 as stated does not hold: [gpx2video -h] makes the parsing return
    -1, and the process ends with status 0. *)
Lemma main_failure_counterexample :
  ~ (forall ext cl p0 rc p3 status p',
        main_parse ext cl p0 = (rc, p3) ->
        rc < 0 \/ command_ (app p3) = CommandClear \/
        command_ (app p3) = CommandTrack \/ command_ (app p3) = CommandNull ->
        main ext cl p0 = Some (status, p') ->
        status <> 0).
Proof.
  intros H.
  exact (H (sample_ext never_returns)
           (mkCommandLine "gpx2video" [opt "h" None] []) fresh (-1) _ 0 _
           eq_refl (or_introl eq_refl) eq_refl eq_refl).
Qed.

(** [gpx2video -m in.mp4 -g in.gpx -o out.mp4 video] on an event loop that
    returns. *)
Lemma main_appends_tasks_witness :
  exists p t,
    main_setup (sample_ext returns_at_once) (with_files ["video"]) fresh =
      EnterLoop p t /\
    appended_ (app p) = [TimeSyncTask; MapTask; RendererTask] /\
    main (sample_ext returns_at_once) (with_files ["video"]) fresh =
      Some (main_exit p t).
Proof.
  exact (main_appends_tasks (sample_ext returns_at_once)
           (with_files ["video"]) fresh 0 _ CommandVideo _
           eq_refl (Z.le_refl 0) eq_refl
           (or_introl eq_refl)).
Defined.

End MainFacts.

(** ** Further properties of [Latitude::validate] *)

Module LatitudeMore.
Import Latitude.

Lemma digits2_pos_size (m : positive) : digits2_pos m = Pos.size m.
Proof. induction m; simpl; congruence. Qed.

(** The mantissa of [d] digits lies in [[2^(d-1), 2^d)]. *)
Lemma digits2_bounds (m : positive) :
  2 ^ (Z.pos (digits2_pos m) - 1) <= Z.pos m < 2 ^ Z.pos (digits2_pos m).
Proof.
  rewrite digits2_pos_size. split.
  - pose proof (Pos.size_le m) as H.
    assert (Z.pos (2 ^ Pos.size m) <= Z.pos m~0) as H' by exact H.
    rewrite Pos2Z.inj_pow in H'.
    replace (Z.pos (Pos.size m)) with (Z.succ (Z.pos (Pos.size m) - 1)) in H'
      by lia.
    rewrite Z.pow_succ_r in H' by lia. lia.
  - pose proof (Pos.size_gt m) as H.
    assert (Z.pos m < Z.pos (2 ^ Pos.size m)) as H' by exact H.
    rewrite Pos2Z.inj_pow in H'. exact H'.
Qed.

(** What validity says of a finite double, for the comparison with 90. *)
Lemma valid_finite_cases s m e :
  valid_double (S754_finite s m e) = true ->
  (-46 < e -> 2 ^ 52 <= Z.pos m) /\ Z.pos m < 2 ^ 53 /\ -1074 <= e.
Proof.
  unfold valid_double, valid_binary, bounded, canonical_mantissa, fexp, emin.
  intros H. apply andb_true_iff in H as [Hc _]. apply Z.eqb_eq in Hc.
  pose proof (digits2_bounds m) as [Hlo Hhi].
  set (d := Z.pos (digits2_pos m)) in *.
  assert (d <= 53) as Hd by lia.
  split; [|split].
  - intros He. assert (d = 53) as Hd53 by lia.
    rewrite Hd53 in Hlo. exact Hlo.
  - eapply Z.lt_le_trans; [exact Hhi|].
    apply Z.pow_le_mono_r; lia.
  - lia.
Qed.

(** [above_90] decided from mantissa and exponent of a valid double. *)
Lemma above_90_cases m e :
  (-46 < e -> 2 ^ 52 <= Z.pos m) -> Z.pos m < 2 ^ 53 ->
  (above_90 m e <->
   -46 < e \/ (e = -46 /\ 6333186975989760 < Z.pos m)).
Proof.
  intros Hn Hm. unfold above_90.
  destruct (Z.lt_trichotomy e (-46)) as [He|[He|He]].
  - (* below the binade of 90 *)
    rewrite (Z.max_l 0 e), (Z.max_r 0 (- e)) by lia.
    assert (2 ^ 47 <= 2 ^ (- e)) as Hp by (apply Z.pow_le_mono_r; lia).
    change (2 ^ 47) with 140737488355328 in Hp.
    change (2 ^ 53) with 9007199254740992 in Hm.
    rewrite Z.pow_0_r. lia.
  - subst e. change (Z.max 0 (- -46)) with 46. change (Z.max 0 (-46)) with 0.
    change (90 * 2 ^ 46) with 6333186975989760. rewrite Z.pow_0_r. lia.
  - specialize (Hn He). change (2 ^ 52) with 4503599627370496 in Hn.
    destruct (Z.le_gt_cases 0 e) as [H0|H0].
    + rewrite (Z.max_r 0 e), (Z.max_l 0 (- e)) by lia.
      assert (1 <= 2 ^ e) as Hp by (apply Z.pow_le_mono_r with (b := 0); lia).
      rewrite Z.pow_0_r. nia.
    + rewrite (Z.max_l 0 e), (Z.max_r 0 (- e)) by lia.
      assert (2 ^ (- e) <= 2 ^ 45) as Hp by (apply Z.pow_le_mono_r; lia).
      change (2 ^ 45) with 35184372088832 in Hp.
      rewrite Z.pow_0_r. lia.
Qed.

(** [<] on two finite doubles, from signs, exponents and mantissas. *)
Lemma dlt_finite s1 m1 e1 s2 m2 e2 :
  dlt (S754_finite s1 m1 e1) (S754_finite s2 m2 e2) = true <->
  match s1, s2 with
  | true, false => True
  | false, true => False
  | false, false => e1 < e2 \/ (e1 = e2 /\ Z.pos m1 < Z.pos m2)
  | true, true => e2 < e1 \/ (e1 = e2 /\ Z.pos m2 < Z.pos m1)
  end.
Proof.
  unfold dlt, SFltb, SFcompare.
  change (Pos.compare_cont Eq m1 m2) with (m1 ?= m2)%positive.
  destruct s1, s2; try (split; [trivial|reflexivity]);
    try (split; [discriminate|contradiction]);
    destruct (Z.compare_spec e1 e2) as [He|He|He];
    try (split; [discriminate|lia]);
    try (split; [lia|reflexivity]);
    destruct (Pos.compare_spec m1 m2) as [Hm|Hm|Hm]; simpl;
    split; try discriminate; try lia; try reflexivity.
Qed.

(** The two comparisons of the range test, on a finite value. *)
Lemma out_of_range_finite s m e :
  out_of_range (S754_finite s m e) = true <->
  -46 < e \/ (e = -46 /\ 6333186975989760 < Z.pos m).
Proof.
  unfold out_of_range, d90, dm90. rewrite orb_true_iff, !dlt_finite.
  destruct s; lia.
Qed.

Section Validate.

Variable Decimal_validate : Node -> ReportPtr -> bool * list ReportCall.
Variable convert : Node -> option double.

#[local] Abbreviation validate :=
  (Latitude.validate Decimal_validate convert).

(** X1.  The range test is exact on binary64 values: when the base
    validation succeeds and the value converts to a valid finite double of
    mantissa [m] and exponent [e], of either sign, [validate] returns false
    exactly when [m * 2^e] is greater than 90. *)
Theorem range_test_exact this report calls s m e :
  Decimal_validate this report = (true, calls) ->
  convert this = Some (S754_finite s m e) ->
  valid_double (S754_finite s m e) = true ->
  (fst (validate this report) = false <-> above_90 m e).
Proof.
  intros Hb Hc Hv.
  destruct (valid_finite_cases _ _ _ Hv) as (Hn & Hm & _).
  rewrite (above_90_cases _ _ Hn Hm), <- (out_of_range_finite s).
  rewrite (LatitudeFacts.validate_converted _ _ _ _ _ _ Hb Hc).
  destruct (out_of_range (S754_finite s m e)); simpl;
    split; intros H; first [reflexivity | discriminate H].
Qed.

(** X2.  Among the values that are not finite numbers, only the two
    infinities are rejected: when the base validation succeeds and the value
    converts to a zero of either sign or to a NaN, [validate] returns
    true. *)
Theorem special_values this report calls v :
  Decimal_validate this report = (true, calls) ->
  convert this = Some v ->
  (forall s m e, v <> S754_finite s m e) ->
  (fst (validate this report) = false <-> exists s, v = S754_infinity s).
Proof.
  intros Hb Hc Hnf.
  rewrite (LatitudeFacts.validate_converted _ _ _ _ _ _ Hb Hc).
  destruct v as [s|s| |s m e].
  - simpl. split; [discriminate|]. intros [s' H]. discriminate.
  - destruct s; simpl; (split; [intros _; eexists|]; reflexivity).
  - simpl. split; [discriminate|]. intros [s' H]. discriminate.
  - destruct (Hnf s m e eq_refl).
Qed.

(** X3.  [validate] keeps the report calls of the base class, in order, and
    adds at most one call after them: nothing, or a single [INCORRECT_VALUE]
    report for this node with its text.  It adds that call only when the
    report is not null, the base validation succeeded and the result is
    false. *)
Theorem validate_calls this report :
  exists extra,
    snd (validate this report) =
      snd (Decimal_validate this report) ++ extra /\
    (extra = [] \/
     (extra = [mkCall this INCORRECT_VALUE (getValue this)] /\
      report = report_object /\
      fst (Decimal_validate this report) = true /\
      fst (validate this report) = false)).
Proof.
  unfold Latitude.validate.
  destruct (Decimal_validate this report) as [[] calls]; simpl.
  - destruct (convert this) as [v|].
    + destruct (out_of_range v), report; simpl.
      * exists []. rewrite app_nil_r. auto.
      * eexists. split; [reflexivity|]. right. auto.
      * exists []. rewrite app_nil_r. auto.
      * exists []. rewrite app_nil_r. auto.
    + exists []. rewrite app_nil_r. auto.
  - exists []. rewrite app_nil_r. auto.
Qed.

(** X4.  Supplying a report does not change the verdict: if the base
    validation returns the same result with and without a report, so does
    [validate]. *)
Theorem verdict_independent_of_report this :
  fst (Decimal_validate this nullptr) =
    fst (Decimal_validate this report_object) ->
  fst (validate this nullptr) = fst (validate this report_object).
Proof.
  unfold Latitude.validate. intros H.
  destruct (Decimal_validate this nullptr) as [ok1 c1],
           (Decimal_validate this report_object) as [ok2 c2].
  simpl in H. subst ok2.
  destruct ok1; [|reflexivity].
  destruct (convert this) as [v|]; [|reflexivity].
  destruct (out_of_range v); reflexivity.
Qed.

End Validate.

Lemma range_test_exact_witness :
  fst (Latitude.validate base_accepts (converts_to d91) (lat "91.0")
         report_object) = false <->
  above_90 6403555720167424 (-46).
Proof.
  exact (range_test_exact base_accepts (converts_to d91) (lat "91.0")
           report_object [] false 6403555720167424 (-46)
           eq_refl eq_refl eq_refl).
Defined.

Lemma special_values_witness :
  fst (Latitude.validate base_accepts (converts_to S754_nan) (lat "nan")
         report_object) = false <->
  exists s, S754_nan = S754_infinity s.
Proof.
  exact (special_values base_accepts (converts_to S754_nan) (lat "nan")
           report_object [] S754_nan eq_refl eq_refl
           (fun s m e (H : S754_nan = S754_finite s m e) =>
              eq_ind S754_nan
                (fun v => match v with S754_nan => True | _ => False end)
                I _ H)).
Defined.

Lemma verdict_independent_of_report_witness :
  fst (Latitude.validate base_accepts (converts_to d91) (lat "91.0") nullptr)
  = fst (Latitude.validate base_accepts (converts_to d91) (lat "91.0")
           report_object).
Proof.
  exact (verdict_independent_of_report base_accepts (converts_to d91)
           (lat "91.0") eq_refl).
Defined.

End LatitudeMore.

(** ** Further properties of [TimeWidget::render] *)

Module TimeWidgetMore.
Import TimeWidget.

Lemma two_digits_table :
  forallb (fun n => String.eqb (two_digits n) (two_chars n)) (seqZ 0 100)
  = true.
Proof. vm_compute. reflexivity. Qed.

(** Below 100, [%H], [%M] and [%S] print exactly two digits. *)
Lemma two_digits_spec (n : Z) :
  0 <= n < 100 -> two_digits n = two_chars n.
Proof.
  intros H. apply String.eqb_eq.
  apply (proj1 (forallb_forall _ _) two_digits_table).
  apply list_elem_of_In, elem_of_seqZ. lia.
Qed.

Lemma digit_char_inj (a b : Z) :
  0 <= a < 10 -> 0 <= b < 10 -> digit_char a = digit_char b -> a = b.
Proof.
  unfold digit_char. intros Ha Hb H.
  apply (f_equal nat_of_ascii) in H.
  rewrite !nat_ascii_embedding in H by lia. lia.
Qed.

Lemma two_chars_inj (a b : Z) :
  0 <= a < 100 -> 0 <= b < 100 -> two_chars a = two_chars b -> a = b.
Proof.
  unfold two_chars. intros Ha Hb [= Hq Hr].
  apply digit_char_inj in Hq;
    [|split; [apply Z.div_pos|apply Z.div_lt_upper_bound]; lia ..].
  apply digit_char_inj in Hr; [|apply Z.mod_pos_bound; lia ..].
  rewrite (Z.div_mod a 10), (Z.div_mod b 10) by lia. congruence.
Qed.

Lemma to_int_fits (z : Z) : fits_int z -> to_int z = z.
Proof.
  unfold fits_int, to_int. intros H.
  change (2 ^ 31) with 2147483648 in *.
  change (2 ^ 32) with 4294967296.
  rewrite Z.mod_small by lia. lia.
Qed.

(** X5.  For a broken-down time with hour below 24, minute below 60 and
    second at most 60, the text formatted by [%H:%M:%S] is made of eight
    characters: the two decimal digits of the hour, a colon, the two digits
    of the minute, a colon, and the two digits of the second.  It fits the
    128-byte buffer of [render]. *)
Theorem strftime_HMS_format (time : tm) :
  clock_in_range time ->
  strftime_HMS time =
    String (digit_char (tm_hour time / 10))
   (String (digit_char (tm_hour time mod 10))
   (String ":"
   (String (digit_char (tm_min time / 10))
   (String (digit_char (tm_min time mod 10))
   (String ":"
   (String (digit_char (tm_sec time / 10))
   (String (digit_char (tm_sec time mod 10)) ""))))))) /\
  (String.length (strftime_HMS time) = 8)%nat.
Proof.
  intros (Hh & Hm & Hs). unfold strftime_HMS.
  rewrite !two_digits_spec by lia. split; reflexivity.
Qed.

(** X6.  Two broken-down times within those ranges that format to the same
    text have the same hour, minute and second: the text shown determines
    the camera time of day. *)
Theorem strftime_HMS_inj (t1 t2 : tm) :
  clock_in_range t1 -> clock_in_range t2 ->
  strftime_HMS t1 = strftime_HMS t2 ->
  tm_hour t1 = tm_hour t2 /\ tm_min t1 = tm_min t2 /\ tm_sec t1 = tm_sec t2.
Proof.
  intros R1 R2.
  destruct (strftime_HMS_format t1 R1) as [-> _].
  destruct (strftime_HMS_format t2 R2) as [-> _].
  destruct R1 as (Hh1 & Hm1 & Hs1), R2 as (Hh2 & Hm2 & Hs2).
  intros [= A B C D E F].
  repeat split; apply two_chars_inj; try lia; unfold two_chars; congruence.
Qed.

(** X7.  When [x + height] and [x + height + padding] fit an [int],
    [render] draws the label and then the value at one and the same point,
    [x + height + padding] to the right and [y] down, whatever the
    sample. *)
Theorem render_anchor
    (ImageBuf : Type)
    (drawLabel drawValue : ImageBuf -> Z -> Z -> string -> ImageBuf)
    (localtime_r : Z -> tm)
    (this : Widget) (buf : ImageBuf) (data : GPXData) :
  fits_int (x this + height this) ->
  fits_int (x this + height this + padding this) ->
  fst (render ImageBuf drawLabel drawValue localtime_r this buf data) =
    [DrawLabel (x this + height this + padding this) (y this) (label this);
     DrawValue (x this + height this + padding this) (y this)
               (strftime_HMS (localtime_r (app_time this)))].
Proof.
  intros H1 H2. unfold render, int_add. simpl.
  rewrite (to_int_fits _ H1), (to_int_fits _ H2). reflexivity.
Qed.

(** 13:04:05. *)
Lemma strftime_HMS_format_witness :
  strftime_HMS (mkTm 5 4 13 1 0 120 3 0 0) = "13:04:05" /\
  (String.length (strftime_HMS (mkTm 5 4 13 1 0 120 3 0 0)) = 8)%nat.
Proof.
  apply (strftime_HMS_format (mkTm 5 4 13 1 0 120 3 0 0)).
  unfold clock_in_range. simpl. lia.
Defined.

Lemma strftime_HMS_inj_witness :
  tm_hour (mkTm 5 4 13 1 0 120 3 0 0) = tm_hour (mkTm 5 4 13 2 1 121 4 1 1) /\
  tm_min (mkTm 5 4 13 1 0 120 3 0 0) = tm_min (mkTm 5 4 13 2 1 121 4 1 1) /\
  tm_sec (mkTm 5 4 13 1 0 120 3 0 0) = tm_sec (mkTm 5 4 13 2 1 121 4 1 1).
Proof.
  apply (strftime_HMS_inj (mkTm 5 4 13 1 0 120 3 0 0)
                          (mkTm 5 4 13 2 1 121 4 1 1)).
  - unfold clock_in_range. simpl. lia.
  - unfold clock_in_range. simpl. lia.
  - reflexivity.
Defined.

(** A widget at (1500, 100), 64 high, with padding 5: text at 1569. *)
Lemma render_anchor_witness :
  fst (render (list DrawCall) (fun b _ _ _ => b) (fun b _ _ _ => b)
         (fun _ => mkTm 5 4 13 1 0 120 3 0 0)
         (mkWidget 1500 100 300 64 2 5 "TIME" 0) []
         (mkGPXData 0 d45 d1 d1 d1)) =
    [DrawLabel 1569 100 "TIME"; DrawValue 1569 100 "13:04:05"].
Proof.
  apply (render_anchor (list DrawCall) (fun b _ _ _ => b) (fun b _ _ _ => b)
           (fun _ => mkTm 5 4 13 1 0 120 3 0 0)
           (mkWidget 1500 100 300 64 2 5 "TIME" 0) []
           (mkGPXData 0 d45 d1 d1 d1)).
  - unfold fits_int. simpl. lia.
  - unfold fits_int. simpl. lia.
Defined.

End TimeWidgetMore.

(** ** Further properties of [parseCommandLine] *)

Module ParseMore.
Import GPX2Video ParseFacts.

Section Parse.

Variable ext : Externals.

(** What one pass through the [switch] assigns, when it stays in the
    loop. *)
Lemma handle_option_assigns r l p :
  match handle_option ext r l p with
  | Finished l' p' =>
      map_zoom l' =
        (if go_option r =? chr "z" then atoi ext (arg (go_optarg r))
         else map_zoom l) /\
      max_duration_ms l' =
        (if go_option r =? chr "d" then atoi ext (arg (go_optarg r))
         else max_duration_ms l) /\
      map_source l' =
        (if go_option r =? chr "s" then atoi ext (arg (go_optarg r))
         else map_source l) /\
      map_factor l' =
        (if go_option r =? chr "f" then strtod ext (arg (go_optarg r))
         else map_factor l) /\
      mediafile l' =
        (if go_option r =? chr "m" then Some (arg (go_optarg r))
         else mediafile l) /\
      gpxfile l' =
        (if go_option r =? chr "g" then Some (arg (go_optarg r))
         else gpxfile l) /\
      outputfile l' =
        (if go_option r =? chr "o" then Some (arg (go_optarg r))
         else outputfile l)
  | Returned _ _ => True
  end.
Proof.
  destruct r as [o a i], l as [vb mz md mf ms g m out].
  split_switch; selected_case;
    try match goal with
        | H : chr _ = _ |- _ => vm_compute in H; discriminate H
        end;
    simpl;
    try (destruct m); try (destruct g); try (destruct out); simpl;
    repeat split;
    repeat match goal with
           | H : (?a =? ?b) = _ |- context [?a =? ?b] => rewrite H
           end;
    reflexivity.
Qed.

(** The locals the loop leaves, from those it starts with and the last
    argument of each option. *)
Lemma option_loop_assigns rs l p l' p' :
  option_loop ext rs l p = Finished l' p' ->
  map_zoom l' = from_option (atoi ext) (map_zoom l) (last_arg (chr "z") rs) /\
  max_duration_ms l' =
    from_option (atoi ext) (max_duration_ms l) (last_arg (chr "d") rs) /\
  map_source l' =
    from_option (atoi ext) (map_source l) (last_arg (chr "s") rs) /\
  map_factor l' =
    from_option (strtod ext) (map_factor l) (last_arg (chr "f") rs) /\
  mediafile l' =
    from_option Some (mediafile l) (last_arg (chr "m") rs) /\
  gpxfile l' = from_option Some (gpxfile l) (last_arg (chr "g") rs) /\
  outputfile l' = from_option Some (outputfile l) (last_arg (chr "o") rs).
Proof.
  revert l p. induction rs as [|r rs IH]; intros l p; simpl.
  - intros [= <- <-]. repeat split.
  - destruct (go_option r =? -1) eqn:E.
    + intros [= <- <-]. repeat split.
    + pose proof (handle_option_assigns r l p) as S.
      destruct (handle_option ext r l p) as [rc q|l1 p1]; [discriminate|].
      intros H. apply IH in H.
      destruct S as (S1 & S2 & S3 & S4 & S5 & S6 & S7).
      destruct H as (H1 & H2 & H3 & H4 & H5 & H6 & H7).
      rewrite H1, H2, H3, H4, H5, H6, H7, S1, S2, S3, S4, S5, S6, S7.
      repeat split;
        match goal with
        | |- context [last_arg ?c rs] => destruct (last_arg c rs)
        end; simpl; try reflexivity;
        match goal with
        | |- context [go_option r =? ?c] => destruct (go_option r =? c)
        end; reflexivity.
Qed.

Lemma last_arg_none code rs :
  last_arg code rs = None <->
  existsb (fun r => go_option r =? code) (handled rs) = false.
Proof.
  induction rs as [|r rs IH]; simpl; [tauto|].
  destruct (go_option r =? -1); simpl; [tauto|].
  destruct (last_arg code rs) as [a|].
  - destruct IH as [_ IH]. rewrite orb_false_iff.
    split; [discriminate|]. intros [_ H]. discriminate (IH H).
  - rewrite (proj1 IH eq_refl), orb_false_r.
    destruct (go_option r =? code); split; congruence.
Qed.

(** The last occurrence of an option is the one no later result repeats. *)
Lemma last_arg_last code before r after :
  Forall (fun r => (go_option r =? -1) = false) (before ++ [r]) ->
  go_option r = code ->
  last_arg code after = None ->
  last_arg code (before ++ r :: after) = Some (arg (go_optarg r)).
Proof.
  intros HF Hr Ha. induction before as [|b before IH]; simpl in *.
  - inversion HF as [|? ? E _]; subst. rewrite E, Ha, Z.eqb_refl.
    reflexivity.
  - inversion HF as [|? ? E HF']; subst. rewrite E, (IH HF'). reflexivity.
Qed.

(** The effect of one pass through the [switch] on the process. *)
Lemma handle_option_effect r l p :
  match handle_option ext r l p with
  | Finished l' p' => (go_option r =? 0) = false -> p' = p
  | Returned rc p' =>
      (rc = 0 /\ p' = with_app (setCommand CommandSource) p) \/
      (rc = -1 /\ (p' = p \/ exists line, p' = say line p))
  end.
Proof.
  destruct r as [o a i], l as [vb mz md mf ms g m out].
  split_switch; selected_case;
    try (destruct m); try (destruct g); try (destruct out);
    try (intros H; first [reflexivity | discriminate H]);
    try (left; split; reflexivity);
    try (right; split; [reflexivity|left; reflexivity]);
    right; (split; [reflexivity|right; eexists; reflexivity]).
Qed.

Lemma option_loop_effect rs l p :
  existsb (fun r => go_option r =? 0) (handled rs) = false ->
  match option_loop ext rs l p with
  | Finished l' p' => p' = p
  | Returned rc p' =>
      (rc = 0 /\ p' = with_app (setCommand CommandSource) p) \/
      (rc = -1 /\ (p' = p \/ exists line, p' = say line p))
  end.
Proof.
  revert l. induction rs as [|r rs IH]; intros l; simpl; [reflexivity|].
  destruct (go_option r =? -1) eqn:E; simpl; [reflexivity|].
  rewrite orb_false_iff. intros [H0 Hrest].
  pose proof (handle_option_effect r l p) as S.
  destruct (handle_option ext r l p) as [rc q|l1 p1]; [exact S|].
  rewrite (S H0). apply IH, Hrest.
Qed.

(** A [return] inside the loop: 0 with the map-list command set, or -1 with
    the application as it was. *)
Lemma option_loop_returned_cases rs l p rc p' :
  option_loop ext rs l p = Returned rc p' ->
  (rc = 0 /\ app p' = setCommand CommandSource (app p)) \/
  (rc = -1 /\ app p' = app p).
Proof.
  revert l p. induction rs as [|r rs IH]; intros l p; simpl; [discriminate|].
  destruct (go_option r =? -1); [discriminate|].
  pose proof (handle_option_effect r l p) as S.
  pose proof (handle_option_spec ext r l p) as T.
  destruct (handle_option ext r l p) as [rc1 q|l1 p1].
  - intros [= <- <-].
    destruct S as [[-> ->]|[-> [->|[line ->]]]]; auto.
  - intros H. apply IH in H. destruct T as (Ha & _).
    rewrite Ha in H. exact H.
Qed.

Lemma command_of_word_not_null w c :
  command_of_word w = Some c -> c <> CommandNull.
Proof.
  unfold command_of_word.
  repeat match goal with
         | |- context [if ?b then _ else _] => destruct b
         end; intros [= <-]; discriminate.
Qed.

(** X8.  [parseCommandLine] returns 0 or -1.  When it returns 0 a command
    is set; when it returns -1 the application object is exactly as before
    (no command set, no settings saved).  In both cases it appends no task,
    logs no notice, and leaves the log level and the tile cache alone. *)
Theorem parse_outcome cl p :
  same_run p (snd (parseCommandLine ext cl p)) /\
  ((fst (parseCommandLine ext cl p) = 0 /\
    command_ (app (snd (parseCommandLine ext cl p))) <> CommandNull) \/
   (fst (parseCommandLine ext cl p) = -1 /\
    app (snd (parseCommandLine ext cl p)) = app p)).
Proof.
  split; [apply MainFacts.parse_same_run|].
  unfold parseCommandLine.
  destruct (option_loop ext (getopt_results cl) (initial_locals ext) p)
    as [rc q|l q] eqn:E.
  - destruct (option_loop_returned_cases _ _ _ _ _ E) as [[-> Ha]|[-> Ha]].
    + left. simpl. rewrite Ha. split; [reflexivity|discriminate].
    + right. simpl. auto.
  - destruct (option_loop_finished _ _ _ _ _ _ E) as (Ha & _).
    destruct (mediafile l); [|right; simpl; auto].
    destruct (gpxfile l); [|right; simpl; auto].
    destruct (outputfile l); [|right; simpl; auto].
    unfold select_and_save.
    destruct (operands cl) as [|w [|w' ws]];
      try (left; simpl; split; [reflexivity|discriminate]).
    destruct (command_of_word w) as [c|] eqn:Ew.
    + left. simpl. split; [reflexivity|].
      exact (command_of_word_not_null _ _ Ew).
    + right. simpl. auto.
Qed.

(** X9.  Provided [getopt_long] never returns 0 (as is the case with this
    option table, whose entries all carry a value), [parseCommandLine]
    prints nothing when it returns 0, and at most one line otherwise. *)
Theorem parse_output cl p :
  existsb (fun r => go_option r =? 0) (handled (getopt_results cl)) = false ->
  exists lines,
    cout (snd (parseCommandLine ext cl p)) = cout p ++ lines /\
    (length lines <= 1)%nat /\
    (fst (parseCommandLine ext cl p) = 0 -> lines = []).
Proof.
  intros H0. unfold parseCommandLine.
  pose proof (option_loop_effect (getopt_results cl)
                (initial_locals ext) p H0) as S.
  destruct (option_loop ext (getopt_results cl) (initial_locals ext) p)
    as [rc q|l q].
  - destruct S as [[-> ->]|[-> [->|[line ->]]]]; simpl.
    + exists []. rewrite app_nil_r. repeat split. simpl. lia.
    + exists []. rewrite app_nil_r. repeat split. simpl. lia.
    + exists [line]. split; [reflexivity|].
      split; [simpl; lia|discriminate].
  - subst q.
    assert (forall line, exists lines,
               cout (snd (-1, say line p)) = cout p ++ lines /\
               (length lines <= 1)%nat /\
               (fst (-1, say line p) = 0 -> lines = []))
      as Hsay.
    { intros line. exists [line]. split; [reflexivity|].
      split; [simpl; lia|discriminate]. }
    destruct (mediafile l); [|apply Hsay].
    destruct (gpxfile l); [|apply Hsay].
    destruct (outputfile l); [|apply Hsay].
    unfold select_and_save.
    destruct (operands cl) as [|w [|w' ws]];
      try (exists []; simpl; rewrite app_nil_r; repeat split; simpl; lia).
    destruct (command_of_word w); [|apply Hsay].
    exists []. simpl. rewrite app_nil_r. repeat split. simpl. lia.
Qed.

(** What a successful parse saves, in terms of the locals the loop left. *)
Lemma parse_saves cl p l p' :
  option_loop ext (getopt_results cl) (initial_locals ext) p = Finished l p' ->
  fst (parseCommandLine ext cl p) = 0 ->
  exists media gpx output,
    mediafile l = Some media /\ gpxfile l = Some gpx /\
    outputfile l = Some output /\
    settings_ (app (snd (parseCommandLine ext cl p))) =
      Some (mkSettings gpx media output (map_factor l) (map_zoom l)
                       (max_duration_ms l) (map_source l)).
Proof.
  intros H. unfold parseCommandLine. rewrite H.
  destruct (mediafile l) as [media|]; [|discriminate].
  destruct (gpxfile l) as [gpx|]; [|discriminate].
  destruct (outputfile l) as [output|]; [|discriminate].
  intros Hrc. exists media, gpx, output. repeat split.
  revert Hrc. unfold select_and_save.
  destruct (operands cl) as [|w [|w' ws]]; try reflexivity.
  destruct (command_of_word w); [reflexivity|discriminate].
Qed.

(** X10.  When the option loop is left by [break] and [parseCommandLine]
    returns 0, the settings it saves are those the command line asks for:
    the file names given with the media, gpx and output options, and for
    factor, zoom, duration and map source the converted argument of the
    last occurrence of the option, or the default (1.0, 12, 0,
    OpenStreetMap) when the option does not occur. *)
Theorem saved_settings cl p l p' :
  option_loop ext (getopt_results cl) (initial_locals ext) p = Finished l p' ->
  fst (parseCommandLine ext cl p) = 0 ->
  settings_ (app (snd (parseCommandLine ext cl p))) =
    Some (settings_of ext cl).
Proof.
  intros H Hrc.
  destruct (parse_saves _ _ _ _ H Hrc)
    as (media & gpx & output & Em & Eg & Eo & ->).
  destruct (option_loop_assigns _ _ _ _ _ H)
    as (Hz & Hd & Hs & Hf & Hm & Hg & Ho).
  simpl in Hz, Hd, Hs, Hf, Hm, Hg, Ho.
  unfold settings_of.
  rewrite <- Hz, <- Hd, <- Hs, <- Hf.
  rewrite Em in Hm. rewrite Eg in Hg. rewrite Eo in Ho.
  destruct (last_arg (chr "m") (getopt_results cl)); [|discriminate].
  destruct (last_arg (chr "g") (getopt_results cl)); [|discriminate].
  destruct (last_arg (chr "o") (getopt_results cl)); [|discriminate].
  simpl in *. congruence.
Qed.

(** X11.  A file option that is given twice is refused: when the loop
    reaches a media, gpx or output option and one of the same kind was
    handled before it, [parseCommandLine] prints that the option is already
    set and returns -1. *)
Theorem repeated_file_option cl p before r after l p' c name :
  handled (getopt_results cl) = before ++ r :: after ->
  option_loop ext before (initial_locals ext) p = Finished l p' ->
  In (c, name) [(chr "m", "media"); (chr "g", "gpx"); (chr "o", "output")] ->
  go_option r = c ->
  existsb (fun r' => go_option r' =? c) before = true ->
  parseCommandLine ext cl p =
    (-1, say ("'" +:+ name +:+ "' option is already set!") p').
Proof.
  intros Hs H Hin Hr Hex.
  pose proof (handled_no_end (getopt_results cl)) as HF. rewrite Hs in HF.
  assert (handled before = before) as Hb.
  { apply Forall_app in HF as [HFb _]. clear -HFb.
    induction before as [|b before IH]; simpl; [reflexivity|].
    inversion HFb as [|? ? E HF']; subst. rewrite E, (IH HF'). reflexivity. }
  destruct (option_loop_finished _ _ _ _ _ _ H) as (_ & _ & _ & _ & Hm & Hg & Ho).
  rewrite Hb in Hm, Hg, Ho.
  unfold parseCommandLine.
  rewrite option_loop_handled, Hs, (option_loop_split _ _ _ _ _ _ _ _ HF H).
  unfold handle_option. rewrite Hr. simpl in Hin.
  destruct Hin as [[= <- <-]|[[= <- <-]|[[= <- <-]|[]]]]; simpl.
  - destruct (mediafile l); [reflexivity|].
    destruct (proj1 Hm eq_refl) as [_ Hn]. congruence.
  - destruct (gpxfile l); [reflexivity|].
    destruct (proj1 Hg eq_refl) as [_ Hn]. congruence.
  - destruct (outputfile l); [reflexivity|].
    destruct (proj1 Ho eq_refl) as [_ Hn]. congruence.
Qed.

(** X12.  When the loop reaches the help option, or an option code the
    [switch] does not list (such as the ['?'] of an unrecognised option),
    [parseCommandLine] returns -1 at once and prints nothing itself. *)
Theorem help_or_unknown_option cl p before r after l p' :
  handled (getopt_results cl) = before ++ r :: after ->
  option_loop ext before (initial_locals ext) p = Finished l p' ->
  go_option r = chr "h" \/
  ~ In (go_option r)
       [0; chr "h"; chr "l"; chr "f"; chr "z"; chr "s"; chr "q"; chr "v";
        chr "d"; chr "m"; chr "g"; chr "o"] ->
  parseCommandLine ext cl p = (-1, p').
Proof.
  intros Hs H Hr.
  pose proof (handled_no_end (getopt_results cl)) as HF. rewrite Hs in HF.
  unfold parseCommandLine.
  rewrite option_loop_handled, Hs, (option_loop_split _ _ _ _ _ _ _ _ HF H).
  destruct Hr as [Hr|Hr].
  - unfold handle_option. rewrite Hr. reflexivity.
  - destruct r as [o a i]. simpl in Hr.
    split_switch; try reflexivity; selected_case;
      exfalso; apply Hr; simpl; tauto.
Qed.

(** X13.  When none of the factor, zoom, duration and map-source options
    is given, a successful parse saves the defaults: factor 1.0, zoom 12,
    duration 0 (the whole media) and the OpenStreetMap source. *)
Theorem default_settings cl p l p' :
  option_loop ext (getopt_results cl) (initial_locals ext) p = Finished l p' ->
  fst (parseCommandLine ext cl p) = 0 ->
  given "f" cl = false -> given "z" cl = false ->
  given "d" cl = false -> given "s" cl = false ->
  exists st,
    settings_ (app (snd (parseCommandLine ext cl p))) = Some st /\
    s_map_factor st = d1 /\ s_map_zoom st = 12 /\
    s_max_duration_ms st = 0 /\
    s_map_source st = SourceOpenStreetMap ext.
Proof.
  intros H Hrc Gf Gz Gd Gs.
  destruct (parse_saves _ _ _ _ H Hrc)
    as (media & gpx & output & _ & _ & _ & ->).
  destruct (option_loop_assigns _ _ _ _ _ H)
    as (Hz & Hd & Hs & Hf & _).
  apply last_arg_none in Gf, Gz, Gd, Gs.
  rewrite Gz in Hz. rewrite Gd in Hd. rewrite Gs in Hs. rewrite Gf in Hf.
  eexists. split; [reflexivity|]. simpl. auto.
Qed.

(** X14.  A later zoom, duration or map-source option overrides an earlier
    one: when such an option is handled and none of the same kind follows
    it, a successful parse saves [atoi] of its argument in the
    corresponding setting. *)
Theorem later_option_overrides cl p l p' before r after c field :
  option_loop ext (getopt_results cl) (initial_locals ext) p = Finished l p' ->
  fst (parseCommandLine ext cl p) = 0 ->
  handled (getopt_results cl) = before ++ r :: after ->
  In (c, field) [(chr "z", s_map_zoom); (chr "d", s_max_duration_ms);
                 (chr "s", s_map_source)] ->
  go_option r = c ->
  existsb (fun r' => go_option r' =? c) after = false ->
  exists st,
    settings_ (app (snd (parseCommandLine ext cl p))) = Some st /\
    field st = atoi ext (arg (go_optarg r)).
Proof.
  intros H Hrc Hs Hin Hr Hafter.
  destruct (parse_saves _ _ _ _ H Hrc)
    as (media & gpx & output & _ & _ & _ & ->).
  rewrite option_loop_handled in H.
  destruct (option_loop_assigns _ _ _ _ _ H)
    as (Hz & Hd & Hsrc & _).
  pose proof (handled_no_end (getopt_results cl)) as HF. rewrite Hs in HF.
  assert (last_arg c (handled (getopt_results cl)) =
          Some (arg (go_optarg r))) as Hl.
  { rewrite Hs. apply last_arg_last.
    - apply Forall_app in HF as [HFb HFr].
      apply Forall_app. split; [exact HFb|].
      inversion HFr; subst. constructor; [assumption|constructor].
    - exact Hr.
    - apply last_arg_none.
      replace (handled after) with after; [exact Hafter|].
      apply Forall_app in HF as [_ HFr]. inversion HFr as [|? ? _ HFa]; subst.
      clear -HFa. induction after as [|a after IH]; simpl; [reflexivity|].
      inversion HFa as [|? ? E HF']; subst. rewrite E, <- (IH HF').
      reflexivity. }
  eexists. split; [reflexivity|].
  simpl in Hin.
  destruct Hin as [[= <- <-]|[[= <- <-]|[[= <- <-]|[]]]]; simpl;
    [rewrite Hz|rewrite Hd|rewrite Hsrc]; rewrite Hl; reflexivity.
Qed.

(** Erasing the verbosity counter commutes with one pass through the
    [switch]. *)
Lemma handle_option_forget r l p :
  forget_outcome (handle_option ext r (forget_verbose l) p) =
  forget_outcome (handle_option ext r l p).
Proof.
  destruct r as [o a i], l as [vb mz md mf ms g m out].
  unfold handle_option, forget_verbose.
  cbn [go_option go_optarg go_index mediafile gpxfile outputfile verbose
       map_zoom max_duration_ms map_factor map_source].
  repeat match goal with
         | |- context [if ?b then _ else _] => destruct b eqn:?
         end;
    reflexivity.
Qed.

Lemma option_loop_forget rs l p :
  forget_outcome (option_loop ext rs (forget_verbose l) p) =
  forget_outcome (option_loop ext rs l p).
Proof.
  revert l p. induction rs as [|r rs IH]; intros l p; simpl; [reflexivity|].
  destruct (go_option r =? -1); [reflexivity|].
  pose proof (handle_option_forget r l p) as S.
  destruct (handle_option ext r (forget_verbose l) p) as [rc1 q1|l1 q1],
           (handle_option ext r l p) as [rc2 q2|l2 q2];
    cbn [forget_outcome] in S; try discriminate S.
  - exact S.
  - assert (forget_verbose l1 = forget_verbose l2) as Hl by congruence.
    assert (q1 = q2) as -> by congruence.
    rewrite <- (IH l1), <- (IH l2), Hl. reflexivity.
Qed.

(** A quiet or verbose option changes nothing but the counter. *)
Lemma quiet_verbose_step r l p :
  (go_option r =? chr "q") || (go_option r =? chr "v") = true ->
  (go_option r =? -1) = false /\
  forget_outcome (handle_option ext r l p) = Finished (forget_verbose l) p.
Proof.
  destruct r as [o a i], l as [vb mz md mf ms g m out]. simpl.
  intros H. apply orb_true_iff in H as [H|H]; apply Z.eqb_eq in H; subst o;
    split; reflexivity.
Qed.

Lemma option_loop_without_qv rs l p :
  forget_outcome
    (option_loop ext
       (List.filter (fun r => negb ((go_option r =? chr "q") ||
                                    (go_option r =? chr "v"))) rs) l p) =
  forget_outcome (option_loop ext rs l p).
Proof.
  revert l p. induction rs as [|r rs IH]; intros l p; simpl; [reflexivity|].
  destruct ((go_option r =? chr "q") || (go_option r =? chr "v")) eqn:E;
    simpl.
  - destruct (quiet_verbose_step r l p E) as [E1 S]. rewrite E1.
    destruct (handle_option ext r l p) as [rc q|l1 q]; [discriminate S|].
    cbn [forget_outcome] in S.
    assert (forget_verbose l1 = forget_verbose l) as Hl by congruence.
    assert (q = p) as -> by congruence.
    rewrite IH, <- (option_loop_forget rs l1), Hl. symmetry.
    apply option_loop_forget.
  - destruct (go_option r =? -1); [reflexivity|].
    destruct (handle_option ext r l p); [reflexivity|apply IH].
Qed.

(** X15.  The quiet and verbose options have no effect on what
    [parseCommandLine] returns, prints, selects or saves: taking them out of
    the command line gives the same result and the same state. *)
Theorem quiet_verbose_ignored cl p :
  parseCommandLine ext (without_quiet_verbose cl) p =
  parseCommandLine ext cl p.
Proof.
  unfold parseCommandLine, without_quiet_verbose. simpl.
  pose proof (option_loop_without_qv (getopt_results cl)
                (initial_locals ext) p) as S.
  destruct (option_loop ext
              (List.filter _ (getopt_results cl)) (initial_locals ext) p)
    as [rc1 q1|l1 q1],
    (option_loop ext (getopt_results cl) (initial_locals ext) p)
    as [rc2 q2|l2 q2]; cbn [forget_outcome] in S; try discriminate S.
  - injection S as -> ->. reflexivity.
  - assert (forget_verbose l1 = forget_verbose l2) as Hl by congruence.
    assert (q1 = q2) as -> by congruence.
    destruct l1, l2. unfold forget_verbose in Hl. simpl in Hl.
    injection Hl as -> -> -> -> -> -> ->. reflexivity.
Qed.

End Parse.

(** [gpx2video -m in.mp4 -g in.gpx -o out.mp4 video] prints nothing. *)
Lemma parse_output_witness :
  exists lines,
    cout (snd (parseCommandLine (sample_ext never_returns)
                 (with_files ["video"]) fresh)) = cout fresh ++ lines /\
    (length lines <= 1)%nat /\
    (fst (parseCommandLine (sample_ext never_returns)
            (with_files ["video"]) fresh) = 0 -> lines = []).
Proof.
  exact (parse_output (sample_ext never_returns) (with_files ["video"]) fresh
           eq_refl).
Defined.

Lemma saved_settings_witness :
  settings_ (app (snd (parseCommandLine (sample_ext never_returns)
                         (with_files ["video"]) fresh))) =
    Some (settings_of (sample_ext never_returns) (with_files ["video"])).
Proof.
  exact (saved_settings (sample_ext never_returns) (with_files ["video"])
           fresh _ _ eq_refl eq_refl).
Defined.

(** [gpx2video -m a.mp4 -m b.mp4]. *)
Lemma repeated_file_option_witness :
  parseCommandLine (sample_ext never_returns)
    (mkCommandLine "gpx2video"
       [opt "m" (Some "a.mp4"); opt "m" (Some "b.mp4")] []) fresh =
    (-1, say "'media' option is already set!" fresh).
Proof.
  exact (repeated_file_option (sample_ext never_returns)
           (mkCommandLine "gpx2video"
              [opt "m" (Some "a.mp4"); opt "m" (Some "b.mp4")] [])
           fresh [opt "m" (Some "a.mp4")] (opt "m" (Some "b.mp4")) [] _ _
           (chr "m") "media" eq_refl eq_refl (or_introl eq_refl)
           eq_refl eq_refl).
Defined.

(** [gpx2video -v -h]. *)
Lemma help_or_unknown_option_witness :
  parseCommandLine (sample_ext never_returns)
    (mkCommandLine "gpx2video" [opt "v" None; opt "h" None] []) fresh =
    (-1, fresh).
Proof.
  exact (help_or_unknown_option (sample_ext never_returns)
           (mkCommandLine "gpx2video" [opt "v" None; opt "h" None] [])
           fresh [opt "v" None] (opt "h" None) [] _ _
           eq_refl eq_refl (or_introl eq_refl)).
Defined.

Lemma default_settings_witness :
  exists st,
    settings_ (app (snd (parseCommandLine (sample_ext never_returns)
                           (with_files ["video"]) fresh))) = Some st /\
    s_map_factor st = d1 /\ s_map_zoom st = 12 /\
    s_max_duration_ms st = 0 /\
    s_map_source st = SourceOpenStreetMap (sample_ext never_returns).
Proof.
  exact (default_settings (sample_ext never_returns) (with_files ["video"])
           fresh _ _ eq_refl eq_refl eq_refl eq_refl eq_refl eq_refl).
Defined.

(** [gpx2video -m in.mp4 -g in.gpx -o out.mp4 -z 14 -z 15]: the second zoom
    is the one saved. *)
Lemma later_option_overrides_witness :
  exists st,
    settings_ (app (snd (parseCommandLine (sample_ext never_returns)
                           (mkCommandLine "gpx2video"
                              [opt "m" (Some "in.mp4");
                               opt "g" (Some "in.gpx");
                               opt "o" (Some "out.mp4");
                               opt "z" (Some "14"); opt "z" (Some "15")] [])
                           fresh))) = Some st /\
    s_map_zoom st = atoi (sample_ext never_returns) "15".
Proof.
  exact (later_option_overrides (sample_ext never_returns)
           (mkCommandLine "gpx2video"
              [opt "m" (Some "in.mp4"); opt "g" (Some "in.gpx");
               opt "o" (Some "out.mp4");
               opt "z" (Some "14"); opt "z" (Some "15")] [])
           fresh _ _
           [opt "m" (Some "in.mp4"); opt "g" (Some "in.gpx");
            opt "o" (Some "out.mp4"); opt "z" (Some "14")]
           (opt "z" (Some "15")) [] (chr "z") s_map_zoom
           eq_refl eq_refl eq_refl (or_introl eq_refl) eq_refl eq_refl).
Defined.

End ParseMore.

(** ** Further properties of [main] *)

Module MainMore.
Import GPX2Video ParseFacts MainFacts.

Section Main.

Variable ext : Externals.

Lemma deleted_main_exit q t :
  deleted (snd (main_exit q t)) = deleted q ++ tasks_list t.
Proof.
  destruct t as [[m|] [r|] [s|]]; unfold main_exit, tasks_list; simpl;
    rewrite <- ?app_assoc, ?app_nil_r; reflexivity.
Qed.

(** X16.  A run of [main] fails to end only inside the event loop: [main]
    does not return exactly when it reaches [app.exec()] and that call never
    returns.  Every run that ends, whatever the command line, ends with
    status 0. *)
Theorem main_ends cl p0 :
  (main ext cl p0 = None <->
   exists p t, main_setup ext cl p0 = EnterLoop p t /\ exec ext p = None) /\
  (forall status p', main ext cl p0 = Some (status, p') -> status = 0).
Proof.
  unfold main. split.
  - destruct (main_setup ext cl p0) as [p t|p t].
    + split; [discriminate|]. intros (q & u & H & _). discriminate H.
    + destruct (exec ext p) as [p'|] eqn:E.
      * split; [discriminate|]. intros (q & u & [= <- <-] & H). congruence.
      * split; [|reflexivity]. intros _. exists p, t. auto.
  - intros status p'.
    destruct (main_setup ext cl p0) as [p t|p t].
    + intros [= <- _]. reflexivity.
    + destruct (exec ext p); [|discriminate]. intros [= <- _]. reflexivity.
Qed.

(** X17.  [main] deletes what it created: the tasks appended to the
    application by the first part of [main] are, up to order, the tasks the
    label [exit] deletes (map, then renderer, then timesync), each once;
    on the paths that append nothing, nothing is deleted. *)
Theorem created_tasks_deleted cl p0 :
  exists created,
    appended_ (app (setup_process (main_setup ext cl p0))) =
      appended_ (app p0) ++ created /\
    Permutation created (tasks_list (setup_tasks (main_setup ext cl p0))) /\
    forall q,
      deleted (snd (main_exit q (setup_tasks (main_setup ext cl p0)))) =
        deleted q ++ tasks_list (setup_tasks (main_setup ext cl p0)).
Proof.
  unfold main_setup.
  destruct (main_parse ext cl p0) as [rc p3] eqn:Hp.
  destruct (main_parse_keeps _ _ _ _ _ Hp) as (Ha & _).
  assert (forall p, appended_ (app p) = appended_ (app p3) ->
            exists created,
              appended_ (app p) = appended_ (app p0) ++ created /\
              Permutation created (tasks_list no_tasks) /\
              forall q, deleted (snd (main_exit q no_tasks)) =
                          deleted q ++ tasks_list no_tasks) as Hnone.
  { intros p E. exists []. rewrite app_nil_r. split; [congruence|].
    split; [constructor|]. intros q. apply deleted_main_exit. }
  destruct (rc <? 0).
  - apply Hnone. destruct (same_run_say_all (usage_lines (argv0 cl)) p3) as [E _].
    exact E.
  - destruct (command_ (app p3)); cbn [setup_process setup_tasks];
      try (apply Hnone; first [reflexivity
                              | apply (same_run_say_all _ p3)]).
    + exists [TimeSyncTask]. split; [simpl; rewrite Ha; reflexivity|].
      split; [reflexivity|]. intros q. apply deleted_main_exit.
    + exists [MapTask]. split; [simpl; rewrite Ha; reflexivity|].
      split; [reflexivity|]. intros q. apply deleted_main_exit.
    + exists [TimeSyncTask; MapTask; RendererTask].
      split; [simpl; rewrite Ha, <- !app_assoc; reflexivity|].
      split; [|intros q; apply deleted_main_exit].
      unfold tasks_list. simpl.
      apply (Permutation_cons_app [MapTask; RendererTask] [] TimeSyncTask).
      reflexivity.
Qed.

(** X18.  Whatever the command line, the verbose and quiet options
    included, the application reaches the end of the first part of [main]
    with its log level at [AV_LOG_INFO], and the version banner is the first
    notice logged, followed by at most one more. *)
Theorem setup_log cl p0 :
  log_level_ (app (setup_process (main_setup ext cl p0))) = AV_LOG_INFO /\
  exists rest,
    notices (setup_process (main_setup ext cl p0)) =
      notices p0 ++ ("gpx2video v" +:+ version ext) :: rest /\
    (length rest <= 1)%nat.
Proof.
  unfold main_setup, main_parse.
  set (p2 := with_app (setLogLevel AV_LOG_INFO)
               (log_notice ("gpx2video v" +:+ version ext) p0)).
  pose proof (parse_same_run ext cl p2) as S.
  destruct (parseCommandLine ext cl p2) as [rc p3].
  destruct S as (_ & Hl & Hn & _). simpl in Hl, Hn.
  assert (forall p, same_run p3 p ->
            log_level_ (app p) = AV_LOG_INFO /\
            exists rest,
              notices p = notices p0 ++
                          ("gpx2video v" +:+ version ext) :: rest /\
              (length rest <= 1)%nat) as Hquiet.
  { intros p (_ & Hl' & Hn' & _). split; [congruence|].
    exists []. rewrite Hn', Hn. split; [reflexivity|simpl; lia]. }
  assert (forall msg,
            log_level_ (app (log_notice msg p3)) = AV_LOG_INFO /\
            exists rest,
              notices (log_notice msg p3) =
                notices p0 ++ ("gpx2video v" +:+ version ext) :: rest /\
              (length rest <= 1)%nat) as Hmsg.
  { intros msg. split; [exact Hl|]. exists [msg]. simpl. rewrite Hn.
    rewrite <- app_assoc. split; [reflexivity|simpl; lia]. }
  destruct (rc <? 0).
  - apply Hquiet, same_run_say_all.
  - destruct (command_ (app p3)); simpl; try apply Hmsg;
      try (apply Hquiet; first [apply same_run_say_all | repeat split]).
Qed.


(** X20.  In a run whose command-line parsing succeeds with the map-list
    command selected, [main] prints the map list after whatever the parsing
    printed, appends no task, does not enter the event loop, and ends with
    status 0. *)
Theorem main_map_list cl p0 rc p3 :
  main_parse ext cl p0 = (rc, p3) ->
  0 <= rc ->
  command_ (app p3) = CommandSource ->
  main ext cl p0 = Some (0, print_map_list ext (argv0 cl) p3) /\
  appended_ (app (print_map_list ext (argv0 cl) p3)) = appended_ (app p0) /\
  deleted (print_map_list ext (argv0 cl) p3) = deleted p0.
Proof.
  intros Hp Hrc Hc.
  destruct (main_parse_keeps _ _ _ _ _ Hp) as (Ha & Hd & _).
  apply Z.ltb_ge in Hrc.
  unfold main, main_setup. rewrite Hp, Hrc, Hc.
  split; [reflexivity|].
  unfold print_map_list.
  match goal with
  | |- context [say_all ?ls p3] =>
      destruct (same_run_say_all ls p3) as (Ea & _ & _ & Ed & _)
  end.
  split; congruence.
Qed.

End Main.


(** [gpx2video -l]. *)
Lemma main_map_list_witness :
  main (sample_ext never_returns)
       (mkCommandLine "gpx2video" [opt "l" None] []) fresh =
    Some (0, print_map_list (sample_ext never_returns) "gpx2video"
               (snd (main_parse (sample_ext never_returns)
                       (mkCommandLine "gpx2video" [opt "l" None] [])
                       fresh))).
Proof.
  exact (proj1 (main_map_list (sample_ext never_returns)
                  (mkCommandLine "gpx2video" [opt "l" None] []) fresh 0 _
                  eq_refl (Z.le_refl 0) eq_refl)).
Defined.

End MainMore.
